(** * Radio Traffic Stitcher: the session layer of [App.tsx] and [types.ts]

    A shallow embedding of the React component [App] (clip list, export
    settings, handlers) and of the constants of [types.ts].  JavaScript
    strings are sequences of UTF-16 code units, JavaScript numbers are
    IEEE 754 doubles, arrays are lists whose elements may be [undefined],
    and every call that leaves the component (the Tauri [invoke] commands,
    the dialogs, [Math.random]) goes through a host that answers it and is
    recorded in a trace.  A handler runs from its first line to its last
    before the next event is taken: what other handlers could do while it
    waits on a promise is not modelled. *)

From Stdlib Require Import ZArith NArith Lia Floats Ascii String.
From stdpp Require Import base list strings pretty.
Import ListNotations.

Local Open Scope Z_scope.

(** ** JavaScript strings *)

(** A string is its sequence of UTF-16 code units. *)
Abbreviation jsstring := (list N).

(** A string literal of the source (ASCII only). *)
Definition lit (s : string) : jsstring :=
  (fun a => N_of_ascii a) <$> list_ascii_of_string s.

Module JS.

Definition DOT : N := 46.
Definition SLASH : N := 47.
Definition BACKSLASH : N := 92.

(** [String.prototype.toLowerCase] on one code unit.  ECMAScript lower-cases
    with the locale-insensitive mappings of the Unicode character database,
    those of SpecialCasing.txt included: ASCII and
    Latin-1 capitals move by 32, KELVIN SIGN becomes [k], and U+0130
    (LATIN CAPITAL LETTER I WITH DOT ABOVE) becomes the two code units
    U+0069 U+0307, the one unconditional lower-case mapping of
    SpecialCasing.txt that is longer than its source.  Code units of
    other scripts are kept: their mappings keep the number of code units
    and yield neither an ASCII character nor a full stop, so the extension
    tests below see all there is to see of them. *)
Definition lower_unit (u : N) : jsstring :=
  if ((65 <=? u) && (u <=? 90))%N then [(u + 32)%N]
  else if ((192 <=? u) && (u <=? 222) && negb (u =? 215))%N then [(u + 32)%N]
  else if (u =? 304)%N then [105%N; 775%N]
  else if (u =? 8490)%N then [107%N]
  else [u].

Definition toLowerCase (s : jsstring) : jsstring :=
  s ≫= lower_unit.

(** [s.lastIndexOf(c)] for a one-unit search string: the index of the last
    occurrence, [-1] when there is none. *)
Fixpoint lastIndexOf_from (i : Z) (s : jsstring) (c : N) : Z :=
  match s with
  | [] => -1
  | u :: s' =>
      let r := lastIndexOf_from (i + 1) s' c in
      if 0 <=? r then r else if (u =? c)%N then i else -1
  end.

Definition lastIndexOf (s : jsstring) (c : N) : Z :=
  lastIndexOf_from 0 s c.

(** [s.substring(start)]: a negative start counts as 0, one past the end
    as the length. *)
Definition substring (s : jsstring) (start : Z) : jsstring :=
  drop (Z.to_nat (Z.min (Z.max start 0) (Z.of_nat (length s)))) s.

(** [arr.includes(x)] on an array of strings. *)
Definition includes (arr : list jsstring) (x : jsstring) : bool :=
  bool_decide (x ∈ arr).

(** [s.split(/[/\\]/)]: the pieces between the separators, at least one. *)
Definition is_sep (u : N) : bool := ((u =? SLASH) || (u =? BACKSLASH))%N.

Fixpoint split_sep (s : jsstring) : list jsstring :=
  match s with
  | [] => [[]]
  | u :: s' =>
      if is_sep u then [] :: split_sep s'
      else match split_sep s' with
           | piece :: pieces => (u :: piece) :: pieces
           | [] => [[u]]
           end
  end.

(** [arr.pop()], [undefined] on an empty array. *)
Definition pop {A} (arr : list A) : option A := last arr.

(** [x || y] on strings: the empty string and [undefined] are falsy. *)
Definition or_else (x : option jsstring) (y : jsstring) : jsstring :=
  match x with
  | Some (u :: s) => u :: s
  | Some [] | None => y
  end.

End JS.

(** ** [types.ts] *)

(** A JavaScript [number]. *)
Abbreviation number := float.

Module AudioClip.
Record t := mk {
  id : jsstring;
  path : jsstring;
  name : jsstring;
  duration : number;
  size : number
}.
End AudioClip.

Module StitchResult.
Record t := mk {
  success : bool;
  output_path : option jsstring;
  error : option jsstring
}.
End StitchResult.

Module AudioInfo.
Record t := mk {
  duration : number;
  size : number;
  valid : bool;
  error : option jsstring
}.
End AudioInfo.

Definition SUPPORTED_EXTENSIONS : list jsstring :=
  [ lit ".mp3"; lit ".wav"; lit ".ogg"; lit ".flac";
    lit ".m4a"; lit ".aac"; lit ".wma"; lit ".opus" ].

Module BitrateOption.
Record t := mk { label : jsstring; value : jsstring }.
End BitrateOption.

Definition BITRATE_OPTIONS : list BitrateOption.t :=
  [ BitrateOption.mk (lit "128 kbps") (lit "128k");
    BitrateOption.mk (lit "192 kbps") (lit "192k");
    BitrateOption.mk (lit "256 kbps") (lit "256k");
    BitrateOption.mk (lit "320 kbps") (lit "320k") ].

Inductive ExportFormat := mp3 | mp4.

Inductive ImageFitMode := fit | fill.

Definition SUPPORTED_IMAGE_EXTENSIONS : list jsstring :=
  [ lit ".png"; lit ".jpg"; lit ".jpeg"; lit ".webp"; lit ".gif" ].

Module VideoConfig.
Record t := mk {
  image_path : option jsstring;
  fit_mode : ImageFitMode
}.
End VideoConfig.

Module ImageInfo.
Record t := mk {
  width : number;
  height : number;
  valid : bool;
  error : option jsstring
}.
End ImageInfo.

Module BackgroundImage.
Record t := mk {
  path : jsstring;
  name : jsstring;
  width : number;
  height : number
}.
End BackgroundImage.

(** ** [App.tsx]: helpers *)

(** [const isSupportedAudio = (filename) => { const ext =
    filename.toLowerCase().substring(filename.lastIndexOf('.'));
    return SUPPORTED_EXTENSIONS.includes(ext); }] *)
Definition isSupportedAudio (filename : jsstring) : bool :=
  let ext := JS.substring (JS.toLowerCase filename) (JS.lastIndexOf filename JS.DOT) in
  JS.includes SUPPORTED_EXTENSIONS ext.

(** [path.split(/[/\\]/).pop() || path] *)
Definition filename_of (path : jsstring) : jsstring :=
  JS.or_else (JS.pop (JS.split_sep path)) path.

(** The extension as the specification words it: the substring from the
    last full stop to the end; a name without a full stop has none. *)
Fixpoint extension (filename : jsstring) : option jsstring :=
  match filename with
  | [] => None
  | u :: s =>
      match extension s with
      | Some e => Some e
      | None => if (u =? JS.DOT)%N then Some (u :: s) else None
      end
  end.

(** The extension, lower-cased, is one of [SUPPORTED_EXTENSIONS]. *)
Definition has_supported_extension (filename : jsstring) : bool :=
  match extension filename with
  | Some e => JS.includes SUPPORTED_EXTENSIONS (JS.toLowerCase e)
  | None => false
  end.

(** ** JavaScript arrays *)

(** An element of a clip array: a clip, or [undefined] ([None]). *)
Abbreviation slot := (option AudioClip.t).

Module JSArray.
Section Ops.
Context {A : Type}.
Implicit Types (arr : list (option A)) (v : option A).

(** [arr[i]]: [undefined] outside the array. *)
Definition get arr (i : nat) : option A := default None (arr !! i).

(** [arr[i] = v]: past the end the array grows and the gap reads
    [undefined]. *)
Definition set arr (i : nat) v : list (option A) :=
  if decide (i < length arr)%nat then <[i:=v]> arr
  else arr ++ replicate (i - length arr) None ++ [v].

(** [arr.splice(start, 1)]: the removed elements, and the array left. *)
Definition splice_out arr (start : nat) : list (option A) * list (option A) :=
  (take 1 (drop start arr), take start arr ++ drop (S start) arr).

(** [arr.splice(index, 0, v)]: the array with [v] put in at [index], at
    the end when [index] is past it. *)
Definition splice_in arr (index : nat) v : list (option A) :=
  take index arr ++ v :: drop index arr.

(** [const [x] = arr] *)
Definition first arr : option A := get arr 0.
End Ops.
End JSArray.

(** ** The component state *)

Module Toast.
Inductive kind := success | error.
Record t := mk { type : kind; message : jsstring }.
End Toast.

Module FfmpegStatus.
Record t := mk {
  installed : bool;
  version : option jsstring;
  error : option jsstring
}.
End FfmpegStatus.

Inductive Direction := up | down.

(** The [useState] cells of [App], in the order of the source. *)
Record AppState := mkAppState {
  clips : list slot;
  outputName : jsstring;
  bitrate : jsstring;
  isProcessing : bool;
  isDragging : bool;
  ffmpegStatus : option FfmpegStatus.t;
  toast : option Toast.t;
  draggedIndex : option nat;
  isInTauri : bool;
  exportFormat : ExportFormat;
  backgroundImage : option BackgroundImage.t;
  imageFitMode : ImageFitMode
}.

Definition initialAppState : AppState := {|
  clips := [];
  outputName := lit "combined_audio";
  bitrate := lit "256k";
  isProcessing := false;
  isDragging := false;
  ffmpegStatus := None;
  toast := None;
  draggedIndex := None;
  isInTauri := false;
  exportFormat := mp3;
  backgroundImage := None;
  imageFitMode := fit
|}.

(** Updates of one cell. *)
Definition upd_clips v (a : AppState) : AppState :=
  mkAppState v (outputName a) (bitrate a) (isProcessing a) (isDragging a)
    (ffmpegStatus a) (toast a) (draggedIndex a) (isInTauri a) (exportFormat a)
    (backgroundImage a) (imageFitMode a).
Definition upd_outputName v (a : AppState) : AppState :=
  mkAppState (clips a) v (bitrate a) (isProcessing a) (isDragging a)
    (ffmpegStatus a) (toast a) (draggedIndex a) (isInTauri a) (exportFormat a)
    (backgroundImage a) (imageFitMode a).
Definition upd_bitrate v (a : AppState) : AppState :=
  mkAppState (clips a) (outputName a) v (isProcessing a) (isDragging a)
    (ffmpegStatus a) (toast a) (draggedIndex a) (isInTauri a) (exportFormat a)
    (backgroundImage a) (imageFitMode a).
Definition upd_isProcessing v (a : AppState) : AppState :=
  mkAppState (clips a) (outputName a) (bitrate a) v (isDragging a)
    (ffmpegStatus a) (toast a) (draggedIndex a) (isInTauri a) (exportFormat a)
    (backgroundImage a) (imageFitMode a).
Definition upd_isDragging v (a : AppState) : AppState :=
  mkAppState (clips a) (outputName a) (bitrate a) (isProcessing a) v
    (ffmpegStatus a) (toast a) (draggedIndex a) (isInTauri a) (exportFormat a)
    (backgroundImage a) (imageFitMode a).
Definition upd_ffmpegStatus v (a : AppState) : AppState :=
  mkAppState (clips a) (outputName a) (bitrate a) (isProcessing a) (isDragging a)
    v (toast a) (draggedIndex a) (isInTauri a) (exportFormat a)
    (backgroundImage a) (imageFitMode a).
Definition upd_toast v (a : AppState) : AppState :=
  mkAppState (clips a) (outputName a) (bitrate a) (isProcessing a) (isDragging a)
    (ffmpegStatus a) v (draggedIndex a) (isInTauri a) (exportFormat a)
    (backgroundImage a) (imageFitMode a).
Definition upd_draggedIndex v (a : AppState) : AppState :=
  mkAppState (clips a) (outputName a) (bitrate a) (isProcessing a) (isDragging a)
    (ffmpegStatus a) (toast a) v (isInTauri a) (exportFormat a)
    (backgroundImage a) (imageFitMode a).
Definition upd_isInTauri v (a : AppState) : AppState :=
  mkAppState (clips a) (outputName a) (bitrate a) (isProcessing a) (isDragging a)
    (ffmpegStatus a) (toast a) (draggedIndex a) v (exportFormat a)
    (backgroundImage a) (imageFitMode a).
Definition upd_exportFormat v (a : AppState) : AppState :=
  mkAppState (clips a) (outputName a) (bitrate a) (isProcessing a) (isDragging a)
    (ffmpegStatus a) (toast a) (draggedIndex a) (isInTauri a) v
    (backgroundImage a) (imageFitMode a).
Definition upd_backgroundImage v (a : AppState) : AppState :=
  mkAppState (clips a) (outputName a) (bitrate a) (isProcessing a) (isDragging a)
    (ffmpegStatus a) (toast a) (draggedIndex a) (isInTauri a) (exportFormat a)
    v (imageFitMode a).
Definition upd_imageFitMode v (a : AppState) : AppState :=
  mkAppState (clips a) (outputName a) (bitrate a) (isProcessing a) (isDragging a)
    (ffmpegStatus a) (toast a) (draggedIndex a) (isInTauri a) (exportFormat a)
    (backgroundImage a) v.


(** ** The host: Tauri commands, dialogs, the window *)

(** A settled promise. *)
Inductive Promise (A : Type) :=
| Resolved (value : A)
| Rejected (reason : jsstring).
Arguments Resolved {A} value.
Arguments Rejected {A} reason.

(** What the [open] dialog resolves to: [null], one path, or an array. *)
Inductive Selected :=
| SelectedNull
| SelectedOne (path : jsstring)
| SelectedMany (paths : list jsstring).

(** Every call that leaves the component, with its arguments and answer. *)
Inductive Event :=
| ImportTauriApis (r : Promise unit)
| InvokeCheckFfmpeg (r : Promise jsstring)
| InvokeGetAudioInfo (path : jsstring) (r : Promise AudioInfo.t)
| InvokeGetImageInfo (path : jsstring) (r : Promise ImageInfo.t)
| InvokeStitchAudio (clips : list slot) (outputPath bitrate : jsstring)
    (r : Promise StitchResult.t)
| InvokeStitchVideo (clips : list slot) (outputPath bitrate : jsstring)
    (videoConfig : VideoConfig.t) (r : Promise StitchResult.t)
| DialogOpen (multiple : bool) (filterName : jsstring) (extensions : list jsstring)
    (r : Promise Selected)
| DialogSave (defaultPath filterName : jsstring) (extensions : list jsstring)
    (r : Promise (option jsstring))
| MathRandomId (r : jsstring)
| ShowToast (t : Toast.t).

(** The answers of the host; [World] is whatever it depends on (the file
    system, the installed tools, the user at the dialogs). *)
Record Host (World : Type) := {
  window_has_tauri : World -> bool;
  import_tauri_apis : World -> Promise unit * World;
  check_ffmpeg : World -> Promise jsstring * World;
  get_audio_info : jsstring -> World -> Promise AudioInfo.t * World;
  get_image_info : jsstring -> World -> Promise ImageInfo.t * World;
  stitch_audio :
    list slot -> jsstring -> jsstring -> World -> Promise StitchResult.t * World;
  stitch_video :
    list slot -> jsstring -> jsstring -> VideoConfig.t -> World ->
    Promise StitchResult.t * World;
  dialog_open :
    bool -> jsstring -> list jsstring -> World -> Promise Selected * World;
  dialog_save :
    jsstring -> jsstring -> list jsstring -> World ->
    Promise (option jsstring) * World;
  random_id : World -> jsstring * World
}.
Arguments window_has_tauri {World}.
Arguments import_tauri_apis {World}.
Arguments check_ffmpeg {World}.
Arguments get_audio_info {World}.
Arguments get_image_info {World}.
Arguments stitch_audio {World}.
Arguments stitch_video {World}.
Arguments dialog_open {World}.
Arguments dialog_save {World}.
Arguments random_id {World}.

(** How a piece of code ends: normally with a value, or by throwing. *)
Inductive Completion (A : Type) :=
| Normal (a : A)
| Throw (e : jsstring).
Arguments Normal {A} a.
Arguments Throw {A} e.

(** The component with its surroundings. *)
Record St (World : Type) := mkSt {
  state : AppState;
  world : World;
  trace : list Event
}.
Arguments mkSt {World}.
Arguments state {World}.
Arguments world {World}.
Arguments trace {World}.

(** ** Handlers *)

(** [prev.filter(c => c.id !== id)]: reading [c.id] of [undefined] throws,
    at the first such element. *)
Definition TypeError : jsstring :=
  lit "TypeError: Cannot read properties of undefined (reading 'id')".

Fixpoint filter_id_ne (id : jsstring) (prev : list slot) : Completion (list slot) :=
  match prev with
  | [] => Normal []
  | None :: _ => Throw TypeError
  | Some c :: rest =>
      match filter_id_ne id rest with
      | Normal kept =>
          Normal (if decide (AudioClip.id c ≠ id) then Some c :: kept else kept)
      | Throw e => Throw e
      end
  end.

(** [files.map(f => f.path).filter(Boolean)]: the paths that are neither
    [undefined] nor empty. *)
Definition truthy_paths (files : list (option jsstring)) : list jsstring :=
  omap (fun p => match p with Some (u :: s) => Some (u :: s) | _ => None end) files.

(** The exchange [[a[i], a[j]] = [a[j], a[i]]]: the right-hand side is read
    first, then [a[i]] and [a[j]] are written in this order. *)
Definition exchange (arr : list slot) (i j : nat) : list slot :=
  let rhs0 := JSArray.get arr j in
  let rhs1 := JSArray.get arr i in
  JSArray.set (JSArray.set arr i rhs0) j rhs1.

(** The two [splice] calls of [handleDragOverItem]. *)
Definition reorder (arr : list slot) (draggedIndex index : nat) : list slot :=
  let '(removed, newClips) := JSArray.splice_out arr draggedIndex in
  let draggedClip := JSArray.first removed in
  JSArray.splice_in newClips index draggedClip.

Inductive UiEvent :=
| Mount
| ClickDropzone
| FileInputChange (files : list (option jsstring))
| ClickSelectImage
| ClickRemoveImage
| DragOver
| DragLeave
| Drop (files : list (option jsstring))
| ClickMove (index : nat) (direction : Direction)
| ClickRemove (id : jsstring)
| ItemDragStart (index : nat)
| ItemDragEnd
| ItemDragOver (index : nat)
| ClickExport
| ClickFormat (format : ExportFormat)
| ClickFitMode (mode : ImageFitMode)
| ChangeOutputName (value : jsstring)
| ChangeBitrate (value : jsstring)
| CloseToast
| ToastTimeout.

(** What the page offers: the bitrate [<select>] holds one [<option>] per
    entry of [BITRATE_OPTIONS], so [e.target.value] is the value of one of
    them.  Handlers are otherwise taken at every argument. *)
Definition offered (ev : UiEvent) : Prop :=
  match ev with
  | ChangeBitrate value => value ∈ (BitrateOption.value <$> BITRATE_OPTIONS)
  | _ => True
  end.

Section App.

Context {World : Type} (host : Host World).

(** Code that reads and writes the state, calls the host, and may throw. *)
Definition M (A : Type) : Type := St World -> Completion A * St World.

Definition ret {A} (a : A) : M A := fun s => (Normal a, s).

Definition bind {A B} (m : M A) (k : A -> M B) : M B :=
  fun s =>
    match m s with
    | (Normal a, s') => k a s'
    | (Throw e, s') => (Throw e, s')
    end.

Definition throw {A} (e : jsstring) : M A := fun s => (Throw e, s).

(** [try { body } catch (e) { handler }] *)
Definition try_catch {A} (body : M A) (handler : jsstring -> M A) : M A :=
  fun s =>
    match body s with
    | (Normal a, s') => (Normal a, s')
    | (Throw e, s') => handler e s'
    end.

(** [try { body } finally { cleanup }] *)
Definition try_finally {A} (body : M A) (cleanup : M unit) : M A :=
  fun s =>
    let '(c, s') := body s in
    match cleanup s' with
    | (Normal _, s'') => (c, s'')
    | (Throw e, s'') => (Throw e, s'')
    end.

(** A call of an async function whose promise is dropped: what it did
    stays, a rejection goes unhandled. *)
Definition detached (m : M unit) : M unit :=
  fun s => (Normal tt, snd (m s)).

Notation "x <- m ;; k" := (bind m (fun x => k))
  (at level 100, m at next level, right associativity).
Notation "m ;;; k" := (bind m (fun _ => k))
  (at level 100, right associativity).

(** The values the handler's closure holds: the state of the render that
    built it. *)
Definition render : M AppState := fun s => (Normal (state s), s).

(** The state at this moment: what a functional update [setX(prev => ...)]
    receives. *)
Definition current : M AppState := fun s => (Normal (state s), s).

Definition update (f : AppState -> AppState) : M unit :=
  fun s => (Normal tt, mkSt (f (state s)) (world s) (trace s)).

Definition emit (ev : Event) : M unit :=
  fun s => (Normal tt, mkSt (state s) (world s) (trace s ++ [ev])).

Definition ask {A} (call : World -> A * World) : M A :=
  fun s => let '(a, w) := call (world s) in (Normal a, mkSt (state s) w (trace s)).

(** [await p] *)
Definition await {A} (p : Promise A) : M A :=
  match p with
  | Resolved value => ret value
  | Rejected reason => throw reason
  end.

Definition setClips v := update (upd_clips v).
Definition setOutputName v := update (upd_outputName v).
Definition setBitrate v := update (upd_bitrate v).
Definition setIsProcessing v := update (upd_isProcessing v).
Definition setIsDragging v := update (upd_isDragging v).
Definition setFfmpegStatus v := update (upd_ffmpegStatus v).
Definition setToast v := update (upd_toast v).
Definition setDraggedIndex v := update (upd_draggedIndex v).
Definition setIsInTauri v := update (upd_isInTauri v).
Definition setExportFormat v := update (upd_exportFormat v).
Definition setBackgroundImage v := update (upd_backgroundImage v).
Definition setImageFitMode v := update (upd_imageFitMode v).

(** [isTauri()] *)
Definition isTauri : M bool :=
  ask (fun w => (window_has_tauri host w, w)).

(** [await getTauriApis()] *)
Definition getTauriApis : M unit :=
  r <- ask (import_tauri_apis host) ;; emit (ImportTauriApis r) ;;; await r.

(** [await invoke(command, args)] *)
Definition invoke_check_ffmpeg : M jsstring :=
  r <- ask (check_ffmpeg host) ;; emit (InvokeCheckFfmpeg r) ;;; await r.

Definition invoke_get_audio_info (path : jsstring) : M AudioInfo.t :=
  r <- ask (get_audio_info host path) ;; emit (InvokeGetAudioInfo path r) ;;; await r.

Definition invoke_get_image_info (path : jsstring) : M ImageInfo.t :=
  r <- ask (get_image_info host path) ;; emit (InvokeGetImageInfo path r) ;;; await r.

Definition invoke_stitch_audio (clips : list slot) (outputPath bitrate : jsstring)
  : M StitchResult.t :=
  r <- ask (stitch_audio host clips outputPath bitrate) ;;
  emit (InvokeStitchAudio clips outputPath bitrate r) ;;; await r.

Definition invoke_stitch_video (clips : list slot) (outputPath bitrate : jsstring)
    (videoConfig : VideoConfig.t) : M StitchResult.t :=
  r <- ask (stitch_video host clips outputPath bitrate videoConfig) ;;
  emit (InvokeStitchVideo clips outputPath bitrate videoConfig r) ;;; await r.

(** [await open({ multiple, filters: [{ name, extensions }] })] *)
Definition open (multiple : bool) (name : jsstring) (extensions : list jsstring)
  : M Selected :=
  r <- ask (dialog_open host multiple name extensions) ;;
  emit (DialogOpen multiple name extensions r) ;;; await r.

(** [await save({ defaultPath, filters: [{ name, extensions }] })] *)
Definition save (defaultPath name : jsstring) (extensions : list jsstring)
  : M (option jsstring) :=
  r <- ask (dialog_save host defaultPath name extensions) ;;
  emit (DialogSave defaultPath name extensions r) ;;; await r.

(** [const generateId = () => Math.random().toString(36).substring(2, 11)] *)
Definition generateId : M jsstring :=
  r <- ask (random_id host) ;; emit (MathRandomId r) ;;; ret r.

(** [showToast]: the toast is set; the timer that clears it is the
    [ToastTimeout] event. *)
Definition showToast (type : Toast.kind) (message : jsstring) : M unit :=
  setToast (Some (Toast.mk type message)) ;;; emit (ShowToast (Toast.mk type message)).

(** The body of the loop of [addAudioFiles] for one path. *)
Definition addAudioFile (path : jsstring) (newClips : list slot) : M (list slot) :=
  let filename := filename_of path in
  if negb (isSupportedAudio filename) then
    showToast Toast.error (lit "Unsupported format: " ++ filename) ;;;
    ret newClips
  else
    try_catch
      (info <- invoke_get_audio_info path ;;
       if AudioInfo.valid info then
         id <- generateId ;;
         ret (newClips ++
                [Some (AudioClip.mk id path filename
                         (AudioInfo.duration info) (AudioInfo.size info))])
       else
         showToast Toast.error
           (JS.or_else (AudioInfo.error info) (lit "Invalid audio: " ++ filename)) ;;;
         ret newClips)
      (fun _ =>
         showToast Toast.error (lit "Error reading: " ++ filename) ;;;
         ret newClips).

(** [for (const path of paths) { ... }] *)
Fixpoint addAudioFiles_loop (paths : list jsstring) (newClips : list slot)
  : M (list slot) :=
  match paths with
  | [] => ret newClips
  | path :: rest =>
      newClips' <- addAudioFile path newClips ;;
      addAudioFiles_loop rest newClips'
  end.

Definition addAudioFiles (paths : list jsstring) : M unit :=
  a <- render ;;
  if negb (isInTauri a) then
    showToast Toast.error (lit "File operations require the Tauri desktop app")
  else
    getTauriApis ;;;
    newClips <- addAudioFiles_loop paths [] ;;
    if (0 <? length newClips)%nat then
      cur <- current ;;
      setClips (clips cur ++ newClips) ;;;
      showToast Toast.success
        (lit "Added " ++ lit (pretty (length newClips)) ++ lit " clip"
           ++ (if (1 <? length newClips)%nat then lit "s" else lit ""))
    else ret tt.

Definition AUDIO_DIALOG_EXTENSIONS : list jsstring :=
  [ lit "mp3"; lit "wav"; lit "ogg"; lit "flac";
    lit "m4a"; lit "aac"; lit "wma"; lit "opus" ].

Definition handleBrowse : M unit :=
  a <- render ;;
  if negb (isInTauri a) then
    showToast Toast.error (lit "File picker requires the Tauri desktop app")
  else
    try_catch
      (getTauriApis ;;;
       selected <- open true (lit "Audio Files") AUDIO_DIALOG_EXTENSIONS ;;
       match selected with
       | SelectedNull | SelectedOne [] => ret tt
       | SelectedOne path => detached (addAudioFiles [path])
       | SelectedMany paths => detached (addAudioFiles paths)
       end)
      (fun error =>
         showToast Toast.error (lit "Error opening file picker: " ++ error)).

Definition IMAGE_DIALOG_EXTENSIONS : list jsstring :=
  [ lit "png"; lit "jpg"; lit "jpeg"; lit "webp"; lit "gif" ].

Definition handleSelectImage : M unit :=
  a <- render ;;
  if negb (isInTauri a) then
    showToast Toast.error (lit "Image picker requires the Tauri desktop app")
  else
    try_catch
      (getTauriApis ;;;
       selected <- open false (lit "Image Files") IMAGE_DIALOG_EXTENSIONS ;;
       match selected with
       | SelectedOne (u :: s) =>
           let selected := u :: s in
           let filename := filename_of selected in
           let ext :=
             JS.substring (JS.toLowerCase filename) (JS.lastIndexOf filename JS.DOT) in
           if negb (JS.includes SUPPORTED_IMAGE_EXTENSIONS ext) then
             showToast Toast.error (lit "Unsupported image format: " ++ filename)
           else
             info <- invoke_get_image_info selected ;;
             if ImageInfo.valid info then
               setBackgroundImage
                 (Some (BackgroundImage.mk selected filename
                          (ImageInfo.width info) (ImageInfo.height info))) ;;;
               showToast Toast.success (lit "Image selected: " ++ filename)
             else
               showToast Toast.error
                 (JS.or_else (ImageInfo.error info) (lit "Invalid image: " ++ filename))
       | _ => ret tt
       end)
      (fun error =>
         showToast Toast.error (lit "Error selecting image: " ++ error)).

Definition handleRemoveImage : M unit := setBackgroundImage None.

Definition handleDragOver : M unit := setIsDragging true.

Definition handleDragLeave : M unit := setIsDragging false.

Definition handleDrop (files : list (option jsstring)) : M unit :=
  a <- render ;;
  setIsDragging false ;;;
  if negb (isInTauri a) then
    showToast Toast.error (lit "Drag & drop requires the Tauri desktop app")
  else
    let paths := truthy_paths files in
    if (0 <? length paths)%nat then detached (addAudioFiles paths)
    else showToast Toast.error (lit "Could not get file paths").

(** The [onChange] of the hidden file input. *)
Definition handleFileInput (files : list (option jsstring)) : M unit :=
  let paths := truthy_paths files in
  if (0 <? length paths)%nat then detached (addAudioFiles paths) else ret tt.

Definition moveClip (index : nat) (direction : Direction) : M unit :=
  a <- render ;;
  let newIndex :=
    match direction with
    | up => Z.of_nat index - 1
    | down => Z.of_nat index + 1
    end in
  if (newIndex <? 0) || (Z.of_nat (length (clips a)) <=? newIndex) then ret tt
  else setClips (exchange (clips a) index (Z.to_nat newIndex)).

Definition removeClip (id : jsstring) : M unit :=
  cur <- current ;;
  match filter_id_ne id (clips cur) with
  | Normal kept => setClips kept
  | Throw e => throw e
  end.

Definition handleDragStart (index : nat) : M unit := setDraggedIndex (Some index).

Definition handleDragEnd : M unit := setDraggedIndex None.

Definition handleDragOverItem (index : nat) : M unit :=
  a <- render ;;
  match draggedIndex a with
  | None => ret tt
  | Some dragged =>
      if decide (dragged = index) then ret tt
      else
        setClips (reorder (clips a) dragged index) ;;;
        setDraggedIndex (Some index)
  end.

Definition handleExport : M unit :=
  a <- render ;;
  if negb (isInTauri a) then
    showToast Toast.error (lit "Export requires the Tauri desktop app")
  else if (length (clips a) =? 0)%nat then
    showToast Toast.error (lit "Add some clips first!")
  else
    try_finally
      (try_catch
         (getTauriApis ;;;
          let isVideo := match exportFormat a with mp4 => true | mp3 => false end in
          let fileExtension := if isVideo then lit "mp4" else lit "mp3" in
          let filterName := if isVideo then lit "MP4 Video" else lit "MP3 Audio" in
          outputPath <-
            save (outputName a ++ lit "." ++ fileExtension) filterName [fileExtension] ;;
          match outputPath with
          | None | Some [] => ret tt
          | Some outputPath =>
              setIsProcessing true ;;;
              result <-
                (if isVideo then
                   let videoConfig :=
                     VideoConfig.mk
                       match backgroundImage a with
                       | Some image =>
                           match BackgroundImage.path image with
                           | [] => None
                           | p => Some p
                           end
                       | None => None
                       end
                       (imageFitMode a) in
                   invoke_stitch_video (clips a) outputPath (bitrate a) videoConfig
                 else
                   invoke_stitch_audio (clips a) outputPath (bitrate a)) ;;
              if StitchResult.success result then
                showToast Toast.success
                  ((if isVideo then lit "Video" else lit "Audio")
                     ++ lit " exported successfully!")
              else
                showToast Toast.error
                  (JS.or_else (StitchResult.error result) (lit "Export failed"))
          end)
         (fun error => showToast Toast.error (lit "Export error: " ++ error)))
      (setIsProcessing false).

(** The effect run on mount. *)
Definition onMount : M unit :=
  inTauri <- isTauri ;;
  setIsInTauri inTauri ;;;
  if inTauri then
    try_catch
      (getTauriApis ;;;
       version <- invoke_check_ffmpeg ;;
       setFfmpegStatus (Some (FfmpegStatus.mk true (Some version) None)))
      (fun error => setFfmpegStatus (Some (FfmpegStatus.mk false None (Some error))))
  else
    setFfmpegStatus
      (Some (FfmpegStatus.mk false None (Some (lit "Not running in Tauri desktop app")))).

(** ** The session as a transition system *)

Definition handler (ev : UiEvent) : M unit :=
  match ev with
  | Mount => onMount
  | ClickDropzone => handleBrowse
  | FileInputChange files => handleFileInput files
  | ClickSelectImage => handleSelectImage
  | ClickRemoveImage => handleRemoveImage
  | DragOver => handleDragOver
  | DragLeave => handleDragLeave
  | Drop files => handleDrop files
  | ClickMove index direction => moveClip index direction
  | ClickRemove id => removeClip id
  | ItemDragStart index => handleDragStart index
  | ItemDragEnd => handleDragEnd
  | ItemDragOver index => handleDragOverItem index
  | ClickExport => handleExport
  | ClickFormat format => setExportFormat format
  | ClickFitMode mode => setImageFitMode mode
  | ChangeOutputName value => setOutputName value
  | ChangeBitrate value => setBitrate value
  | CloseToast => setToast None
  | ToastTimeout => setToast None
  end.

(** The state a handler leaves, whether it ended normally or threw. *)
Definition after (m : M unit) (s : St World) : St World := snd (m s).

Definition initial (w : World) : St World := mkSt initialAppState w [].

Inductive step : St World -> UiEvent -> St World -> Prop :=
| step_handler s ev : offered ev -> step s ev (after (handler ev) s).

Inductive reachable : St World -> Prop :=
| reachable_initial w : reachable (initial w)
| reachable_step s ev s' : reachable s -> step s ev s' -> reachable s'.

End App.

(** ** What a run leaves behind *)

(** The cells other than the toast are those of [a]. *)
Definition only_toast (a a' : AppState) : Prop := a' = upd_toast (toast a') a.

(** The state after clips were appended: [added] at the end of the list,
    the toast possibly changed, every other cell as before. *)
Definition appended (a a'' : AppState) (added : list slot) : Prop :=
  exists a', only_toast a a' /\ a'' = upd_clips (clips a ++ added) a'.

(** What the loop does on [paths]: the events it leaves and the clips it
    collects. *)
Inductive probe_log : list jsstring -> list Event -> list slot -> Prop :=
| log_done : probe_log [] [] []
| log_unsupported path paths evs added :
    isSupportedAudio (filename_of path) = false ->
    probe_log paths evs added ->
    probe_log (path :: paths)
      (ShowToast (Toast.mk Toast.error (lit "Unsupported format: " ++ filename_of path))
         :: evs)
      added
| log_valid path info id paths evs added :
    isSupportedAudio (filename_of path) = true ->
    AudioInfo.valid info = true ->
    probe_log paths evs added ->
    probe_log (path :: paths)
      (InvokeGetAudioInfo path (Resolved info) :: MathRandomId id :: evs)
      (Some (AudioClip.mk id path (filename_of path)
               (AudioInfo.duration info) (AudioInfo.size info)) :: added)
| log_invalid path info paths evs added :
    isSupportedAudio (filename_of path) = true ->
    AudioInfo.valid info = false ->
    probe_log paths evs added ->
    probe_log (path :: paths)
      (InvokeGetAudioInfo path (Resolved info)
         :: ShowToast (Toast.mk Toast.error
                         (JS.or_else (AudioInfo.error info)
                            (lit "Invalid audio: " ++ filename_of path)))
         :: evs)
      added
| log_rejected path reason paths evs added :
    isSupportedAudio (filename_of path) = true ->
    probe_log paths evs added ->
    probe_log (path :: paths)
      (InvokeGetAudioInfo path (Rejected reason)
         :: ShowToast (Toast.mk Toast.error (lit "Error reading: " ++ filename_of path))
         :: evs)
      added.

(** The [get_audio_info] calls of a trace, in order, with their answers. *)
Definition probes (evs : list Event) : list (jsstring * Promise AudioInfo.t) :=
  omap (fun ev =>
          match ev with
          | InvokeGetAudioInfo path r => Some (path, r)
          | _ => None
          end) evs.

(** The calls that were answered with a valid [AudioInfo]. *)
Definition valid_probes (evs : list Event) : list (jsstring * AudioInfo.t) :=
  omap (fun pr =>
          match pr with
          | (path, Resolved info) =>
              if AudioInfo.valid info then Some (path, info) else None
          | (_, Rejected _) => None
          end) (probes evs).

(** The clip [addAudioFiles] builds from a valid probe, whatever its id. *)
Definition clip_of_probe (sl : slot) (pr : jsstring * AudioInfo.t) : Prop :=
  exists id,
    sl = Some (AudioClip.mk id (fst pr) (filename_of (fst pr))
                 (AudioInfo.duration (snd pr)) (AudioInfo.size (snd pr))).

(** The clip list and the bitrate a [stitch_audio] or [stitch_video] call
    was given. *)
Definition stitched_clips (ev : Event) : option (list slot) :=
  match ev with
  | InvokeStitchAudio clips _ _ _ | InvokeStitchVideo clips _ _ _ _ => Some clips
  | _ => None
  end.

Definition stitched_bitrate (ev : Event) : option jsstring :=
  match ev with
  | InvokeStitchAudio _ _ bitrate _ | InvokeStitchVideo _ _ bitrate _ _ => Some bitrate
  | _ => None
  end.

(** Events that are neither a probe nor a stitch call. *)
Definition quiet (ev : Event) : Prop :=
  match ev with
  | InvokeGetAudioInfo _ _ | InvokeStitchAudio _ _ _ _ | InvokeStitchVideo _ _ _ _ _ => False
  | _ => True
  end.

(** The events of one [addAudioFiles] call: the loop's log over the paths
    it went through, between quiet events. *)
Definition add_log (paths : list jsstring) (evs : list Event) (added : list slot) : Prop :=
  exists pre log post,
    evs = pre ++ log ++ post /\ Forall quiet pre /\ Forall quiet post
    /\ probe_log paths log added.

(** [addAudioFiles] reaches its loop: the session runs in Tauri and the
    Tauri modules load. *)
Definition started {World} (host : Host World) (s : St World) : bool :=
  isInTauri (state s)
  && match fst (import_tauri_apis host (world s)) with
     | Resolved _ => true
     | Rejected _ => false
     end.

(** The path's file name passes [isSupportedAudio]. *)
Definition supported_path (path : jsstring) : Prop :=
  isSupportedAudio (filename_of path) = true.

#[global] Instance supported_path_dec path : Decision (supported_path path).
Proof. unfold supported_path. apply _. Defined.

(** ** A host to run the handlers on *)

(** The world counts the ids handed out.  Every file probes valid with the
    same metadata, except one that is corrupt and one that cannot be read;
    the dialogs answer with fixed paths and stitching succeeds. *)
Definition demo_info : AudioInfo.t := AudioInfo.mk 1.5%float 2048%float true None.

Definition demo_host : Host nat := {|
  window_has_tauri := fun _ => true;
  import_tauri_apis := fun w => (Resolved tt, w);
  check_ffmpeg := fun w => (Resolved (lit "ffmpeg version 6.0"), w);
  get_audio_info := fun path w =>
    if decide (path = lit "/music/corrupt.mp3") then
      (Resolved (AudioInfo.mk 0%float 0%float false (Some (lit "Invalid data"))), w)
    else if decide (path = lit "/music/unreadable.wav") then
      (Rejected (lit "ffprobe failed"), w)
    else (Resolved demo_info, w);
  get_image_info := fun path w =>
    (Resolved (ImageInfo.mk 800%float 600%float true None), w);
  stitch_audio := fun clips outputPath bitrate w =>
    (Resolved (StitchResult.mk true (Some outputPath) None), w);
  stitch_video := fun clips outputPath bitrate videoConfig w =>
    (Resolved (StitchResult.mk true (Some outputPath) None), w);
  dialog_open := fun multiple name extensions w =>
    if multiple then (Resolved (SelectedMany [lit "/music/a.mp3"; lit "/music/b.wav"]), w)
    else (Resolved (SelectedOne (lit "/img/cover.png")), w);
  dialog_save := fun defaultPath name extensions w =>
    (Resolved (Some (lit "/out/" ++ defaultPath)), w);
  random_id := fun w => (lit "id" ++ lit (pretty w), S w)
|}.

(** A session in Tauri holding the given clips. *)
Definition demo_session (clips : list slot) : St nat :=
  mkSt (upd_isInTauri true (upd_clips clips initialAppState)) 0%nat [].

Definition demo_clip (id path : string) : AudioClip.t :=
  AudioClip.mk (lit id) (lit path) (filename_of (lit path)) 1.5%float 2048%float.

(** The video configuration a [stitch_video] call was given. *)
Definition stitched_video_config (ev : Event) : option VideoConfig.t :=
  match ev with
  | InvokeStitchVideo _ _ _ videoConfig _ => Some videoConfig
  | _ => None
  end.

(** [backgroundImage?.path || null] *)
Definition image_path_of (image : option BackgroundImage.t) : option jsstring :=
  match image with
  | Some image =>
      match BackgroundImage.path image with
      | [] => None
      | p => Some p
      end
  | None => None
  end.

(** ** The encoder invocation of [stitch_video] *)

Module Encoder.

(** The stages of a video filter chain. *)
Inductive Filter :=
| ScalePreservingAspect (width height : N) (cover : bool)
| Pad (width height : N)
| Crop (width height : N).

Inductive Arg :=
| LoopImage (path : jsstring)
| BlackFrame (width height : N)
| ConcatList (paths : list jsstring)
| VideoFilter (chain : list Filter)
| AudioBitrate (bitrate : jsstring)
| Output (path : jsstring).

Definition WIDTH : N := 1920.
Definition HEIGHT : N := 1080.

(** Modelled from the spec: the filter chain of the command builder of
    [stitch_video], whose Rust source is not among the files.  The spec
    (4.2 and the glossary) gives letterbox mode a scale that preserves
    the aspect ratio followed by a pad to the 1920x1080 frame, and fill
    mode a scale that preserves the aspect ratio followed by a crop to
    it; the titles of the two fit-mode buttons of [App.tsx] say the same
    ("Scale to fit, black bars if needed", "Scale to fill, may crop
    edges").  [cover] tells the scale that fills the frame from the one
    that fits inside it. *)
Definition filter_chain (fit_mode : ImageFitMode) : list Filter :=
  match fit_mode with
  | fit => [ScalePreservingAspect WIDTH HEIGHT false; Pad WIDTH HEIGHT]
  | fill => [ScalePreservingAspect WIDTH HEIGHT true; Crop WIDTH HEIGHT]
  end.

(** Modelled from the spec: the argument vector of the video path of the
    command builder (4.2): the image looped, or a black frame when there
    is none, as a 1920x1080 stream; the clips concatenated in order; the
    filter chain of the fit mode; the audio bitrate; the destination. *)
Definition video_args (clips : list jsstring) (outputPath bitrate : jsstring)
    (videoConfig : VideoConfig.t) : list Arg :=
  [ match VideoConfig.image_path videoConfig with
    | Some path => LoopImage path
    | None => BlackFrame WIDTH HEIGHT
    end;
    ConcatList clips;
    VideoFilter (filter_chain (VideoConfig.fit_mode videoConfig));
    AudioBitrate bitrate;
    Output outputPath ].

(** The encoder invocation a [stitch_video] call of the trace leads to. *)
Definition invocation (ev : Event) : option (list Arg) :=
  match ev with
  | InvokeStitchVideo clips outputPath bitrate videoConfig _ =>
      Some (video_args (AudioClip.path <$> omap id clips) outputPath bitrate videoConfig)
  | _ => None
  end.

Definition is_scale (f : Filter) : bool :=
  match f with ScalePreservingAspect _ _ _ => true | _ => false end.
Definition is_pad (f : Filter) : bool :=
  match f with Pad _ _ => true | _ => false end.
Definition is_crop (f : Filter) : bool :=
  match f with Crop _ _ => true | _ => false end.

End Encoder.

(** ** Describing a reordering *)

(** [l'] is [l] with the elements at [i] and [j] exchanged: these two
    positions hold each other's element, every other position holds its
    own, and the length and the elements as a multiset are those of [l]. *)
Definition swapped (l l' : list slot) (i j : nat) : Prop :=
  l' !! i = l !! j
  /\ l' !! j = l !! i
  /\ (forall k, k <> i -> k <> j -> l' !! k = l !! k)
  /\ length l' = length l
  /\ l' ≡ₚ l.

(** The clips of an array, its [undefined] elements left out. *)
Definition clips_of (l : list slot) : list AudioClip.t := omap id l.

(** The events that can add clips: browsing, the file input, a drop. *)
Definition adds_clips (ev : UiEvent) : bool :=
  match ev with
  | ClickDropzone | FileInputChange _ | Drop _ => true
  | _ => false
  end.

(** How one event may change the clip list. *)
Definition clips_change (ev : UiEvent) (l l' : list slot) : Prop :=
  match ev with
  | ClickRemove id => l' = l \/ filter_id_ne id l = Normal l'
  | ClickMove index _ =>
      l' = l
      \/ exists j, (j < length l)%nat /\ (index = (j + 1)%nat \/ j = (index + 1)%nat)
                   /\ l' = exchange l index j
  | ItemDragOver index => l' = l \/ exists dragged, l' = reorder l dragged index
  | ClickDropzone | FileInputChange _ | Drop _ => exists added, l' = l ++ added
  | _ => l' = l
  end.

(** One event of the session: the trace grows, every stitch call made
    carries the bitrate of the state, the bitrate changes on
    [ChangeBitrate] only, and the clip list changes as [clips_change]
    allows. *)
Definition session_step {World} (ev : UiEvent) (s s' : St World) : Prop :=
  exists evs,
    trace s' = trace s ++ evs
    /\ Forall (fun e => forall br, stitched_bitrate e = Some br -> br = bitrate (state s)) evs
    /\ bitrate (state s')
       = match ev with ChangeBitrate value => value | _ => bitrate (state s) end
    /\ clips_change ev (clips (state s)) (clips (state s')).

(** A session with three clips in which the last one is being dragged. *)
Definition demo_dragging : St nat :=
  mkSt (upd_draggedIndex (Some 2%nat)
          (state (demo_session [ Some (demo_clip "a" "/music/a.mp3");
                                 Some (demo_clip "b" "/music/b.wav");
                                 Some (demo_clip "c" "/music/c.ogg") ])))
       0%nat [].

(** A session on the demo host: mount, choose 320k, add a file, export. *)
Definition demo_run : St nat :=
  after (handler demo_host ClickExport)
    (after (handler demo_host (FileInputChange [Some (lit "/music/a.mp3")]))
       (after (handler demo_host (ChangeBitrate (lit "320k")))
          (after (handler demo_host Mount) (initial 0%nat)))).

(** ** [App.tsx]: what is computed at each render *)

(** The slice both extension checks take: the lower-cased name cut at the
    index the last full stop has in the name as given. *)
Definition sliced_extension (filename : jsstring) : jsstring :=
  JS.substring (JS.toLowerCase filename) (JS.lastIndexOf filename JS.DOT).

Definition TypeErrorReading (field : string) : jsstring :=
  lit "TypeError: Cannot read properties of undefined (reading '" ++ lit field ++ lit "')".

(** [clips.reduce((sum, clip) => sum + clip.field, sum0)]: the sum runs
    from the left in floating point; reading a field of [undefined]
    throws (the message is the engine's). *)
Fixpoint reduce_sum (field : AudioClip.t -> number) (name : string)
    (sum : number) (clips : list slot) : Completion number :=
  match clips with
  | [] => Normal sum
  | Some clip :: rest => reduce_sum field name (sum + field clip)%float rest
  | None :: _ => Throw (TypeErrorReading name)
  end.

Definition totalDuration (clips : list slot) : Completion number :=
  reduce_sum AudioClip.duration "duration" 0%float clips.

Definition totalSize (clips : list slot) : Completion number :=
  reduce_sum AudioClip.size "size" 0%float clips.

(** The completion is a throw. *)
Definition throws {A} (c : Completion A) : Prop :=
  match c with
  | Throw _ => True
  | Normal _ => False
  end.

(** The [disabled] attribute of the export button:
    [clips.length === 0 || isProcessing || !ffmpegStatus?.installed]. *)
Definition exportDisabled (a : AppState) : bool :=
  (length (clips a) =? 0)%nat
  || isProcessing a
  || negb match ffmpegStatus a with
          | Some status => FfmpegStatus.installed status
          | None => false
          end.

(** ** The audio-only [App.tsx] *)

(** The earlier version of the component has no video cells; its
    [handleExport] is modelled over the same state and host. *)
Module AudioOnly.

#[local] Notation "x <- m ;; k" := (bind m (fun x => k))
  (at level 100, m at next level, right associativity).
#[local] Notation "m ;;; k" := (bind m (fun _ => k))
  (at level 100, right associativity).

Definition handleExport {World : Type} (host : Host World) : M unit :=
  a <- render ;;
  if negb (isInTauri a) then
    showToast Toast.error (lit "Export requires the Tauri desktop app")
  else if (length (clips a) =? 0)%nat then
    showToast Toast.error (lit "Add some clips first!")
  else
    try_finally
      (try_catch
         (getTauriApis host ;;;
          outputPath <-
            save host (outputName a ++ lit ".mp3") (lit "MP3 Audio") [lit "mp3"] ;;
          match outputPath with
          | None | Some [] => ret tt
          | Some outputPath =>
              setIsProcessing true ;;;
              result <- invoke_stitch_audio host (clips a) outputPath (bitrate a) ;;
              if StitchResult.success result then
                showToast Toast.success (lit "Audio exported successfully!")
              else
                showToast Toast.error
                  (JS.or_else (StitchResult.error result) (lit "Export failed"))
          end)
         (fun error => showToast Toast.error (lit "Export error: " ++ error)))
      (setIsProcessing false).

End AudioOnly.

(** ** Describing a session further *)

(** No element of the array is [undefined]. *)
Definition all_defined (l : list slot) : Prop := Forall is_Some l.

(** The index an event uses lies in the clip list: the index of a move,
    and the dragged index kept in the state for a drag-over. *)
Definition aims_inside (ev : UiEvent) (a : AppState) : Prop :=
  match ev with
  | ClickMove index _ => (index < length (clips a))%nat
  | ItemDragOver _ =>
      match draggedIndex a with
      | Some dragged => (dragged < length (clips a))%nat
      | None => True
      end
  | _ => True
  end.

(** A toast is all the event shows: nothing went to the host. *)
Definition is_toast (ev : Event) : Prop :=
  match ev with
  | ShowToast _ => True
  | _ => False
  end.

(** The destination a stitch call was given, and how it was answered
    ([true] for [stitch_video]). *)
Definition stitched_output (ev : Event) : option jsstring :=
  match ev with
  | InvokeStitchAudio _ outputPath _ _ | InvokeStitchVideo _ outputPath _ _ _ =>
      Some outputPath
  | _ => None
  end.

Definition stitch_answer (ev : Event) : option (bool * Promise StitchResult.t) :=
  match ev with
  | InvokeStitchAudio _ _ _ r => Some (false, r)
  | InvokeStitchVideo _ _ _ _ r => Some (true, r)
  | _ => None
  end.

(** The file extension of an export format. *)
Definition format_extension (format : ExportFormat) : jsstring :=
  match format with
  | mp3 => lit "mp3"
  | mp4 => lit "mp4"
  end.

(** [Array.isArray(selected) ? selected : [selected]] *)
Definition selected_paths (selected : Selected) : list jsstring :=
  match selected with
  | SelectedNull => []
  | SelectedOne path => [path]
  | SelectedMany paths => paths
  end.

(** The paths an event hands to [addAudioFiles]: those of the files
    dropped or chosen that have one, in their order, or the selection the
    audio dialog of [evs] was answered with. *)
Definition handed (ev : UiEvent) (evs : list Event) (paths : list jsstring) : Prop :=
  match ev with
  | FileInputChange files | Drop files => paths = truthy_paths files
  | ClickDropzone =>
      exists selected,
        DialogOpen true (lit "Audio Files") AUDIO_DIALOG_EXTENSIONS (Resolved selected) ∈ evs
        /\ paths = selected_paths selected
  | _ => False
  end.

(** The session is ready for export only inside Tauri: a status that says
    FFmpeg is installed comes with [isInTauri]. *)
Definition tauri_ready (a : AppState) : Prop :=
  match ffmpegStatus a with
  | Some status => FfmpegStatus.installed status = true -> isInTauri a = true
  | None => True
  end.

(** The toast [addAudioFiles] ends with when it has added [n] clips. *)
Definition added_toast (n : nat) : Toast.t :=
  Toast.mk Toast.success
    (lit "Added " ++ lit (pretty n) ++ lit " clip"
       ++ (if (1 <? n)%nat then lit "s" else lit "")).
(** ** Facts about the string helpers *)

Section StringFacts.

Implicit Types (s pre suf : jsstring) (u : N).

Lemma lower_unit_nonempty u : (1 <= length (JS.lower_unit u))%nat.
Proof. unfold JS.lower_unit. repeat case_match; simpl; lia. Qed.

Lemma lower_unit_dot u : JS.DOT ∈ JS.lower_unit u -> u = JS.DOT.
Proof.
  unfold JS.lower_unit, JS.DOT.
  repeat case_match; rewrite ?elem_of_cons, ?elem_of_nil; intros Hin;
    repeat match goal with
           | H : _ \/ _ |- _ => destruct H
           | H : False |- _ => destruct H
           | H : (_ && _)%bool = true |- _ => apply andb_prop in H as [? ?]
           | H : (_ <=? _)%N = true |- _ => apply N.leb_le in H
           | H : (_ =? _)%N = true |- _ => apply N.eqb_eq in H
           end; try lia; try discriminate.
Qed.

Lemma toLowerCase_app s t :
  JS.toLowerCase (s ++ t) = JS.toLowerCase s ++ JS.toLowerCase t.
Proof. unfold JS.toLowerCase. apply bind_app. Qed.

Lemma toLowerCase_cons u s :
  JS.toLowerCase (u :: s) = JS.lower_unit u ++ JS.toLowerCase s.
Proof. reflexivity. Qed.

Lemma toLowerCase_length s : (length s <= length (JS.toLowerCase s))%nat.
Proof.
  induction s as [|u s IH]; [reflexivity|].
  rewrite toLowerCase_cons, length_app. simpl.
  pose proof (lower_unit_nonempty u). lia.
Qed.

Lemma toLowerCase_no_dot s : JS.DOT ∉ s -> JS.DOT ∉ JS.toLowerCase s.
Proof.
  intros Hs Hin. apply list_elem_of_bind in Hin as (u & Hu & Hus).
  apply lower_unit_dot in Hu. subst u. contradiction.
Qed.

(** A name either has no full stop, or splits at its last one. *)
Lemma last_dot_split s :
  JS.DOT ∉ s \/ exists pre suf, s = pre ++ JS.DOT :: suf /\ JS.DOT ∉ suf.
Proof.
  induction s as [|u s [IH | (pre & suf & -> & Hsuf)]].
  - left. apply not_elem_of_nil.
  - destruct (decide (u = JS.DOT)) as [-> | Hne].
    + right. exists [], s. split; [reflexivity | assumption].
    + left. rewrite not_elem_of_cons. split; [congruence | assumption].
  - right. exists (u :: pre), suf. split; [reflexivity | assumption].
Qed.

Lemma lastIndexOf_from_none i s :
  JS.DOT ∉ s -> JS.lastIndexOf_from i s JS.DOT = -1.
Proof.
  revert i. induction s as [|u s IH]; intros i Hs; [reflexivity|].
  apply not_elem_of_cons in Hs as [Hu Hs]. simpl. rewrite (IH _ Hs). simpl.
  destruct (N.eqb_spec u JS.DOT); [congruence | reflexivity].
Qed.

Lemma lastIndexOf_from_last i pre suf :
  JS.DOT ∉ suf -> 0 <= i ->
  JS.lastIndexOf_from i (pre ++ JS.DOT :: suf) JS.DOT = i + Z.of_nat (length pre).
Proof.
  intros Hsuf. revert i. induction pre as [|u pre IH]; intros i Hi; simpl.
  - rewrite (lastIndexOf_from_none _ _ Hsuf). simpl. lia.
  - rewrite IH by lia.
    destruct (Z.leb_spec 0 (i + 1 + Z.of_nat (length pre))); lia.
Qed.

Lemma extension_none s : JS.DOT ∉ s -> extension s = None.
Proof.
  induction s as [|u s IH]; intros Hs; [reflexivity|].
  apply not_elem_of_cons in Hs as [Hu Hs]. simpl. rewrite (IH Hs).
  destruct (N.eqb_spec u JS.DOT); [congruence | reflexivity].
Qed.

Lemma extension_last pre suf :
  JS.DOT ∉ suf -> extension (pre ++ JS.DOT :: suf) = Some (JS.DOT :: suf).
Proof.
  intros Hsuf. induction pre as [|u pre IH]; simpl.
  - rewrite (extension_none _ Hsuf). reflexivity.
  - rewrite IH. reflexivity.
Qed.

(** Every supported extension is a full stop followed by units that are
    not full stops. *)
Lemma supported_extension_shape e :
  e ∈ SUPPORTED_EXTENSIONS -> exists r, e = JS.DOT :: r /\ JS.DOT ∉ r.
Proof.
  assert (Forall (fun e => exists r, e = JS.DOT :: r /\ JS.DOT ∉ r)
            SUPPORTED_EXTENSIONS) as Hall.
  { repeat constructor; eexists; (split; [reflexivity|]);
      intros Hin; apply (list_elem_of_In (A:=N)) in Hin; simpl in Hin;
      unfold JS.DOT in Hin; intuition discriminate. }
  intros He. exact (proj1 (Forall_forall _ _) Hall e He).
Qed.

Lemma includes_true arr x : JS.includes arr x = true <-> x ∈ arr.
Proof. unfold JS.includes. apply bool_decide_eq_true. Qed.

Lemma substring_negative s start : start <= 0 -> JS.substring s start = s.
Proof.
  intros Hstart. unfold JS.substring.
  replace (Z.to_nat _) with 0%nat by lia. reflexivity.
Qed.

(** The slice [isSupportedAudio] takes, at a name that splits at its last
    full stop: whatever the lower-casing added before the full stop stays
    in front of the extension. *)
Lemma substring_at_last_dot pre suf :
  JS.DOT ∉ suf ->
  JS.substring (JS.toLowerCase (pre ++ JS.DOT :: suf))
               (JS.lastIndexOf (pre ++ JS.DOT :: suf) JS.DOT)
  = drop (length pre) (JS.toLowerCase pre) ++ JS.DOT :: JS.toLowerCase suf.
Proof.
  intros Hsuf. unfold JS.substring, JS.lastIndexOf.
  rewrite (lastIndexOf_from_last _ _ _ Hsuf) by lia. rewrite toLowerCase_app.
  change (JS.toLowerCase (JS.DOT :: suf)) with (JS.DOT :: JS.toLowerCase suf).
  pose proof (toLowerCase_length pre) as Hlen.
  rewrite length_app. simpl.
  replace (Z.to_nat _) with (length pre) by lia.
  rewrite drop_app.
  replace (length pre - length (JS.toLowerCase pre))%nat with 0%nat by lia.
  reflexivity.
Qed.

(** What [isSupportedAudio] accepts has a supported extension. *)
Lemma isSupportedAudio_sound s :
  isSupportedAudio s = true -> has_supported_extension s = true.
Proof.
  unfold isSupportedAudio, has_supported_extension. intros Hacc.
  apply includes_true in Hacc.
  destruct (last_dot_split s) as [Hno | (pre & suf & -> & Hsuf)].
  - exfalso.
    unfold JS.lastIndexOf in Hacc. rewrite (lastIndexOf_from_none _ _ Hno) in Hacc.
    rewrite substring_negative in Hacc by lia.
    apply supported_extension_shape in Hacc as (r & Heq & _).
    apply (toLowerCase_no_dot _ Hno). rewrite Heq. apply list_elem_of_here.
  - rewrite (extension_last _ _ Hsuf).
    rewrite (substring_at_last_dot _ _ Hsuf) in Hacc.
    apply includes_true.
    destruct (drop (length pre) (JS.toLowerCase pre)) as [|x xs]; [exact Hacc|].
    exfalso. apply supported_extension_shape in Hacc as (r & Heq & Hr).
    simpl in Heq. injection Heq as _ <-. apply Hr.
    apply elem_of_app. right. apply list_elem_of_here.
Qed.

(** Where lower-casing keeps the length of the part before the last full
    stop, [isSupportedAudio] is the extension test. *)
Lemma toLowerCase_length_plain s :
  304%N ∉ s -> length (JS.toLowerCase s) = length s.
Proof.
  induction s as [|u s IH]; intros Hs; [reflexivity|].
  apply not_elem_of_cons in Hs as [Hu Hs].
  rewrite toLowerCase_cons, length_app, (IH Hs). simpl. f_equal.
  unfold JS.lower_unit. repeat case_match; try reflexivity.
  match goal with H : (u =? 304)%N = true |- _ => apply N.eqb_eq in H end.
  congruence.
Qed.

Lemma isSupportedAudio_complete s :
  304%N ∉ s -> has_supported_extension s = true -> isSupportedAudio s = true.
Proof.
  unfold isSupportedAudio, has_supported_extension. intros Hplain Hext.
  destruct (last_dot_split s) as [Hno | (pre & suf & -> & Hsuf)].
  - rewrite (extension_none _ Hno) in Hext. discriminate.
  - rewrite (extension_last _ _ Hsuf) in Hext.
    rewrite (substring_at_last_dot _ _ Hsuf).
    apply not_elem_of_app in Hplain as [Hpre _].
    rewrite drop_ge by (rewrite (toLowerCase_length_plain _ Hpre); lia).
    exact Hext.
Qed.

End StringFacts.

(** ** The helpers on concrete names *)

Example isSupportedAudio_mp3 : isSupportedAudio (lit "track.MP3") = true.
Proof. reflexivity. Qed.

Example isSupportedAudio_nodot : isSupportedAudio (lit "mp3") = false.
Proof. reflexivity. Qed.

Example filename_of_unix : filename_of (lit "/a/b\c.wav") = lit "c.wav".
Proof. reflexivity. Qed.

Example filename_of_trailing : filename_of (lit "/a/b/") = lit "/a/b/".
Proof. reflexivity. Qed.

(** ** Running handlers *)

(** Unfolds the operations of [M] and the host calls, then follows the
    branches of the code. *)
Ltac unfold_M :=
  cbv beta iota zeta delta
    [bind ret throw try_catch try_finally detached render current update emit ask await
     after setClips setOutputName setBitrate setIsProcessing setIsDragging
     setFfmpegStatus setToast setDraggedIndex setIsInTauri setExportFormat
     setBackgroundImage setImageFitMode isTauri getTauriApis invoke_check_ffmpeg
     invoke_get_audio_info invoke_get_image_info invoke_stitch_audio
     invoke_stitch_video open save generateId showToast state world trace fst snd].

Ltac branch :=
  match goal with
  | |- context [match ?x with _ => _ end] =>
      lazymatch x with
      | context [match _ with _ => _ end] => fail
      | _ => destruct x eqn:?
      end
  end.

Ltac run := unfold_M; repeat (branch; unfold_M).

(** Brings [(t ++ [e1]) ++ [e2]] to [t ++ [e1; e2]]. *)
Ltac tidy_trace := rewrite <- ?app_assoc; cbn [Datatypes.app].

(** A run that collected no clip. *)
Ltac exists_no_clip :=
  eexists _, [], _, _; rewrite app_nil_r; split; [reflexivity|].

Lemma only_toast_refl a : only_toast a a.
Proof. destruct a; reflexivity. Qed.

Lemma only_toast_upd a t : only_toast a (upd_toast t a).
Proof. reflexivity. Qed.

Lemma only_toast_trans a b c : only_toast a b -> only_toast b c -> only_toast a c.
Proof. unfold only_toast. intros -> ->. reflexivity. Qed.

Lemma only_toast_clips a a' : only_toast a a' -> clips a' = clips a.
Proof. intros ->. reflexivity. Qed.

Lemma only_toast_bitrate a a' : only_toast a a' -> bitrate a' = bitrate a.
Proof. intros ->. reflexivity. Qed.

Create HintDb session.
#[local] Hint Resolve only_toast_refl only_toast_upd : session.

(** ** The loop of [addAudioFiles] *)

Section LoopFacts.

Context {World : Type} (host : Host World).

Lemma addAudioFile_log path newClips (s : St World) :
  exists evs added a' w',
    addAudioFile host path newClips s
    = (Normal (newClips ++ added), mkSt a' w' (trace s ++ evs))
    /\ only_toast (state s) a'
    /\ probe_log [path] evs added.
Proof.
  unfold addAudioFile.
  destruct (isSupportedAudio (filename_of path)) eqn:Hsup; cbn [negb].
  - run; tidy_trace.
    all: first
      [ do 4 eexists; split; [reflexivity|]
      | exists_no_clip ].
    all: split; [auto with session|]; eauto using probe_log.
  - run; tidy_trace. exists_no_clip.
    split; [auto with session|]; eauto using probe_log.
Qed.

Lemma probe_log_cons path paths evs1 added1 evs2 added2 :
  probe_log [path] evs1 added1 ->
  probe_log paths evs2 added2 ->
  probe_log (path :: paths) (evs1 ++ evs2) (added1 ++ added2).
Proof.
  intros H1 H2.
  inversion H1 as [ | ? ? ? ? ? Hr | ? ? ? ? ? ? ? ? Hr | ? ? ? ? ? ? ? Hr | ? ? ? ? ? ? Hr ];
    subst; inversion Hr; subst; cbn [Datatypes.app]; eauto using probe_log.
Qed.

Lemma addAudioFiles_loop_log paths newClips (s : St World) :
  exists evs added a' w',
    addAudioFiles_loop host paths newClips s
    = (Normal (newClips ++ added), mkSt a' w' (trace s ++ evs))
    /\ only_toast (state s) a'
    /\ probe_log paths evs added.
Proof.
  revert newClips s. induction paths as [|path paths IH]; intros newClips s.
  - exists [], [], (state s), (world s). rewrite !app_nil_r.
    destruct s. repeat split; auto with session. constructor.
  - destruct (addAudioFile_log path newClips s)
      as (evs1 & added1 & a1 & w1 & Hrun1 & Htoast1 & Hlog1).
    destruct (IH (newClips ++ added1) (mkSt a1 w1 (trace s ++ evs1)))
      as (evs2 & added2 & a2 & w2 & Hrun2 & Htoast2 & Hlog2).
    exists (evs1 ++ evs2), (added1 ++ added2), a2, w2.
    cbn [addAudioFiles_loop]. unfold bind at 1. rewrite Hrun1, Hrun2.
    cbn [trace state] in *. rewrite !app_assoc.
    repeat split; eauto using only_toast_trans, probe_log_cons.
Qed.

Lemma appended_nil a a' : only_toast a a' -> appended a a' [].
Proof.
  intros H. exists a'. split; [exact H|]. rewrite app_nil_r.
  rewrite <- (only_toast_clips _ _ H). destruct a'; reflexivity.
Qed.

Lemma add_log_quiet evs : Forall quiet evs -> add_log [] evs [].
Proof.
  intros H. exists evs, [], []. rewrite app_nil_r.
  repeat split; auto using probe_log.
Qed.

Lemma started_true (s : St World) u w :
  isInTauri (state s) = true ->
  import_tauri_apis host (world s) = (Resolved u, w) ->
  started host s = true.
Proof. unfold started. intros -> ->. reflexivity. Qed.

Lemma started_not_in_tauri (s : St World) :
  isInTauri (state s) = false -> started host s = false.
Proof. unfold started. intros ->. reflexivity. Qed.

Lemma started_rejected (s : St World) e w :
  import_tauri_apis host (world s) = (Rejected e, w) ->
  started host s = false.
Proof. unfold started. intros ->. apply andb_false_r. Qed.

(** One call of [addAudioFiles]: clips are appended, the toast may change,
    and the events are those of the loop between quiet ones. *)
Lemma addAudioFiles_log paths (s : St World) :
  exists evs added a' w' c,
    addAudioFiles host paths s = (c, mkSt a' w' (trace s ++ evs))
    /\ appended (state s) a' added
    /\ add_log (if started host s then paths else []) evs added
    /\ (started host s = true -> c = Normal tt).
Proof.
  destruct s as [a w t].
  unfold addAudioFiles. unfold bind at 1. unfold render. cbn [state world trace].
  destruct (isInTauri a) eqn:Htauri; cbn [negb].
  - unfold bind at 1. unfold getTauriApis.
    destruct (import_tauri_apis host w) as [[u|e] w1] eqn:Himport.
    + rewrite (started_true (mkSt a w t) _ _ Htauri Himport).
      unfold_M. rewrite Himport. unfold_M.
      destruct (addAudioFiles_loop_log paths []
                  (mkSt a w1 (t ++ [ImportTauriApis (Resolved u)])))
        as (evs & added & a1 & w2 & Hrun & Htoast & Hlog).
      rewrite Hrun. cbn [Datatypes.app trace state] in *.
      destruct (0 <? length added)%nat eqn:Hlen; unfold_M; tidy_trace.
      * eexists _, added, _, _, _. split; [reflexivity|]. split.
        -- rewrite (only_toast_clips _ _ Htoast).
           eexists (upd_toast _ a1). split; [|reflexivity].
           eapply only_toast_trans; [exact Htoast | apply only_toast_upd].
        -- split; [|reflexivity].
           eexists [_], evs, [_]. repeat split; auto; repeat constructor.
      * apply Nat.ltb_ge in Hlen.
        assert (added = []) as -> by (destruct added; [reflexivity | simpl in Hlen; lia]).
        eexists _, [], _, _, _. split; [reflexivity|]. split.
        -- apply appended_nil. exact Htoast.
        -- split; [|reflexivity].
           eexists [_], evs, []. rewrite app_nil_r.
           repeat split; auto; repeat constructor.
    + rewrite (started_rejected (mkSt a w t) _ _ Himport).
      unfold_M. rewrite Himport. unfold_M.
      eexists [_], [], _, _, _. split; [reflexivity|]. split.
      * apply appended_nil. auto with session.
      * split; [|discriminate]. apply add_log_quiet. repeat constructor.
  - rewrite (started_not_in_tauri (mkSt a w t) Htauri). unfold_M.
    eexists [_], [], _, _, _. split; [reflexivity|]. split.
    + apply appended_nil. auto with session.
    + split; [|discriminate]. apply add_log_quiet. repeat constructor.
Qed.

End LoopFacts.

(** ** Reading the probes off a trace *)

Lemma probes_app evs1 evs2 : probes (evs1 ++ evs2) = probes evs1 ++ probes evs2.
Proof. apply omap_app. Qed.

Lemma valid_probes_app evs1 evs2 :
  valid_probes (evs1 ++ evs2) = valid_probes evs1 ++ valid_probes evs2.
Proof. unfold valid_probes. rewrite probes_app. apply omap_app. Qed.

Lemma probes_quiet evs : Forall quiet evs -> probes evs = [].
Proof.
  induction 1 as [|ev evs Hev _ IH]; [reflexivity|].
  destruct ev; try contradiction; exact IH.
Qed.

Lemma valid_probes_quiet evs : Forall quiet evs -> valid_probes evs = [].
Proof. intros H. unfold valid_probes. rewrite (probes_quiet _ H). reflexivity. Qed.

(** The loop probes the supported paths, in order, whatever the answers. *)
Lemma probe_log_probes paths log added :
  probe_log paths log added -> (probes log).*1 = filter supported_path paths.
Proof.
  induction 1 as [ | path paths evs added Hsup _ IH
                   | path info id paths evs added Hsup Hvalid _ IH
                   | path info paths evs added Hsup Hvalid _ IH
                   | path reason paths evs added Hsup _ IH ].
  - reflexivity.
  - rewrite filter_cons_False by (unfold supported_path; congruence). exact IH.
  - rewrite filter_cons_True by exact Hsup. cbn. f_equal. exact IH.
  - rewrite filter_cons_True by exact Hsup. cbn. f_equal. exact IH.
  - rewrite filter_cons_True by exact Hsup. cbn. f_equal. exact IH.
Qed.

(** The clips collected are those of the valid probes, in order. *)
Lemma probe_log_added paths log added :
  probe_log paths log added -> Forall2 clip_of_probe added (valid_probes log).
Proof.
  induction 1 as [ | path paths evs added Hsup _ IH
                   | path info id paths evs added Hsup Hvalid _ IH
                   | path info paths evs added Hsup Hvalid _ IH
                   | path reason paths evs added Hsup _ IH ].
  - constructor.
  - exact IH.
  - unfold valid_probes in *. cbn. rewrite Hvalid. constructor; [|exact IH].
    exists id. reflexivity.
  - unfold valid_probes in *. cbn. rewrite Hvalid. exact IH.
  - exact IH.
Qed.

(** A path that fails [isSupportedAudio] gets its toast and nothing else. *)
Lemma probe_log_unsupported_toast paths log added path :
  probe_log paths log added ->
  path ∈ paths -> isSupportedAudio (filename_of path) = false ->
  ShowToast (Toast.mk Toast.error (lit "Unsupported format: " ++ filename_of path)) ∈ log.
Proof.
  intros Hlog Hin Hsup.
  induction Hlog as [ | p paths evs added Hp _ IH
                      | p info id paths evs added Hp Hvalid _ IH
                      | p info paths evs added Hp Hvalid _ IH
                      | p reason paths evs added Hp _ IH ].
  - inversion Hin.
  - apply elem_of_cons in Hin as [-> | Hin]; [left | right; auto].
  - apply elem_of_cons in Hin as [-> | Hin]; [congruence | do 2 right; auto].
  - apply elem_of_cons in Hin as [-> | Hin]; [congruence | do 2 right; auto].
  - apply elem_of_cons in Hin as [-> | Hin]; [congruence | do 2 right; auto].
Qed.

Lemma elem_of_probes path r evs :
  InvokeGetAudioInfo path r ∈ evs -> path ∈ (probes evs).*1.
Proof.
  intros Hin. apply list_elem_of_fmap. exists (path, r). split; [reflexivity|].
  unfold probes. apply list_elem_of_omap. eexists. split; [exact Hin | reflexivity].
Qed.

Lemma clip_of_probe_paths added prs :
  Forall2 clip_of_probe added prs ->
  forall c, Some c ∈ added -> AudioClip.path c ∈ prs.*1.
Proof.
  induction 1 as [|sl pr added prs [id ->] _ IH]; intros c Hin.
  - inversion Hin.
  - apply elem_of_cons in Hin as [Heq | Hin].
    + injection Heq as ->. left.
    + right. exact (IH c Hin).
Qed.

Lemma valid_probes_paths evs : (valid_probes evs).*1 ⊆ (probes evs).*1.
Proof.
  intros path Hin. apply list_elem_of_fmap in Hin as ([p info] & -> & Hin).
  unfold valid_probes in Hin. apply list_elem_of_omap in Hin as ([p' r] & Hin & Hsome).
  destruct r as [info'|]; [|discriminate].
  destruct (AudioInfo.valid info'); [|discriminate].
  injection Hsome as -> ->.
  apply list_elem_of_fmap. exists (p, Resolved info). split; [reflexivity | exact Hin].
Qed.

(** The same facts for a whole [addAudioFiles] call. *)
Lemma add_log_probes paths evs added :
  add_log paths evs added -> (probes evs).*1 = filter supported_path paths.
Proof.
  intros (pre & log & post & -> & Hpre & Hpost & Hlog).
  rewrite !probes_app, (probes_quiet _ Hpre), (probes_quiet _ Hpost), app_nil_r.
  exact (probe_log_probes _ _ _ Hlog).
Qed.

Lemma add_log_added paths evs added :
  add_log paths evs added -> Forall2 clip_of_probe added (valid_probes evs).
Proof.
  intros (pre & log & post & -> & Hpre & Hpost & Hlog).
  rewrite !valid_probes_app, (valid_probes_quiet _ Hpre), (valid_probes_quiet _ Hpost),
    app_nil_r.
  exact (probe_log_added _ _ _ Hlog).
Qed.

Lemma probe_log_no_stitch paths log added :
  probe_log paths log added -> Forall (fun ev => stitched_bitrate ev = None) log.
Proof. induction 1; repeat constructor; assumption. Qed.

Lemma quiet_no_stitch evs :
  Forall quiet evs -> Forall (fun ev => stitched_bitrate ev = None) evs.
Proof.
  intros H. eapply Forall_impl; [exact H|].
  intros ev Hev. destruct ev; try contradiction; reflexivity.
Qed.

Lemma add_log_no_stitch paths evs added :
  add_log paths evs added -> Forall (fun ev => stitched_bitrate ev = None) evs.
Proof.
  intros (pre & log & post & -> & Hpre & Hpost & Hlog).
  rewrite !Forall_app. repeat split; eauto using quiet_no_stitch, probe_log_no_stitch.
Qed.

(** ** Adding files *)

Lemma isSupportedAudio_has_extension filename :
  has_supported_extension filename = false -> isSupportedAudio filename = false.
Proof.
  intros Hext. destruct (isSupportedAudio filename) eqn:Hacc; [|reflexivity].
  apply isSupportedAudio_sound in Hacc. congruence.
Qed.

Lemma filter_if {A} (P : A -> Prop) `{forall x, Decision (P x)} (b : bool) (l : list A) :
  filter P (if b then l else []) = if b then filter P l else [].
Proof. destruct b; reflexivity. Qed.

Lemma appended_clips a a' added : appended a a' added -> clips a' = clips a ++ added.
Proof. intros (a1 & _ & ->). reflexivity. Qed.

(** C3. A path whose file name has no supported extension (the part from
    the last full stop on, lower-cased, is not in [SUPPORTED_EXTENSIONS])
    is rejected by [addAudioFiles] before any external call: the events of
    the call hold no [get_audio_info] for that path, no clip appended has
    that path, and where the loop is reached the path gets its
    "Unsupported format" toast. *)
Theorem addAudioFiles_rejects_unsupported {World} (host : Host World)
    (paths : list jsstring) (path : jsstring) (s : St World) :
  has_supported_extension (filename_of path) = false ->
  let s' := after (addAudioFiles host paths) s in
  exists evs added,
    trace s' = trace s ++ evs
    /\ clips (state s') = clips (state s) ++ added
    /\ (forall r, InvokeGetAudioInfo path r ∉ evs)
    /\ (forall c, Some c ∈ added -> AudioClip.path c <> path)
    /\ (path ∈ paths -> started host s = true ->
        ShowToast (Toast.mk Toast.error (lit "Unsupported format: " ++ filename_of path))
          ∈ evs).
Proof.
  intros Hext s'. apply isSupportedAudio_has_extension in Hext.
  destruct (addAudioFiles_log host paths s) as (evs & added & a' & w' & c & Hrun & Happ & Hlog & Hend).
  subst s'. unfold after. rewrite Hrun. cbn [snd trace state].
  exists evs, added. split; [reflexivity|]. split; [exact (appended_clips _ _ _ Happ)|].
  assert (path ∉ (probes evs).*1) as Hnot.
  { rewrite (add_log_probes _ _ _ Hlog). intros Hin.
    apply list_elem_of_filter in Hin as [Hsup _]. unfold supported_path in Hsup. congruence. }
  split; [|split].
  - intros r Hin. apply Hnot. exact (elem_of_probes _ _ _ Hin).
  - intros cl Hin Heq. apply Hnot. apply valid_probes_paths. rewrite <- Heq.
    exact (clip_of_probe_paths _ _ (add_log_added _ _ _ Hlog) cl Hin).
  - intros Hin Hstarted. rewrite Hstarted in Hlog.
    destruct Hlog as (pre & log & post & -> & _ & _ & Hlog).
    apply elem_of_app. right. apply elem_of_app. left.
    exact (probe_log_unsupported_toast _ _ _ _ Hlog Hin Hext).
Qed.

Lemma addAudioFiles_rejects_unsupported_witness :
  has_supported_extension (filename_of (lit "/docs/notes.txt")) = false
  /\ let s' := after (addAudioFiles demo_host [lit "/music/a.mp3"; lit "/docs/notes.txt"])
                 (demo_session []) in
     exists evs added,
       trace s' = trace (demo_session []) ++ evs
       /\ clips (state s') = clips (state (demo_session [])) ++ added
       /\ (forall r, InvokeGetAudioInfo (lit "/docs/notes.txt") r ∉ evs)
       /\ (forall c, Some c ∈ added -> AudioClip.path c <> lit "/docs/notes.txt")
       /\ (lit "/docs/notes.txt" ∈ [lit "/music/a.mp3"; lit "/docs/notes.txt"] ->
           started demo_host (demo_session []) = true ->
           ShowToast (Toast.mk Toast.error
                        (lit "Unsupported format: " ++ filename_of (lit "/docs/notes.txt")))
             ∈ evs).
Proof.
  split; [reflexivity|].
  apply (addAudioFiles_rejects_unsupported demo_host
           [lit "/music/a.mp3"; lit "/docs/notes.txt"] (lit "/docs/notes.txt")
           (demo_session [])).
  reflexivity.
Defined.

(** C4. [addAudioFiles] goes through all its paths whatever the probes
    answer: where the loop is reached, the paths probed are the supported
    ones of the input, in order, a rejected or invalid probe stopping
    nothing, and the call ends normally; and the clips appended at the end
    of the session list are those of the probes answered valid, in input
    order, each with the path, name, duration and size of its probe. *)
Theorem addAudioFiles_appends_valid_probes {World} (host : Host World)
    (paths : list jsstring) (s : St World) :
  let s' := after (addAudioFiles host paths) s in
  exists evs added,
    trace s' = trace s ++ evs
    /\ clips (state s') = clips (state s) ++ added
    /\ Forall2 clip_of_probe added (valid_probes evs)
    /\ (probes evs).*1 = (if started host s then filter supported_path paths else [])
    /\ (if started host s then fst (addAudioFiles host paths s) = Normal tt else added = []).
Proof.
  intros s'.
  destruct (addAudioFiles_log host paths s)
    as (evs & added & a' & w' & c & Hrun & Happ & Hlog & Hend).
  subst s'. unfold after. rewrite Hrun. cbn [fst snd trace state].
  exists evs, added. split; [reflexivity|]. split; [exact (appended_clips _ _ _ Happ)|].
  split; [exact (add_log_added _ _ _ Hlog)|].
  split; [rewrite (add_log_probes _ _ _ Hlog); apply filter_if|].
  destruct (started host s); [exact (Hend eq_refl)|].
  destruct Hlog as (pre & log & post & _ & _ & _ & Hlog). inversion Hlog. reflexivity.
Qed.

(** On the demo host: of five paths, the corrupt file, the unreadable file
    and the text file are passed over and the two others are appended, in
    order, after the clip already there. *)
Example addAudioFiles_demo :
  let s' := after (addAudioFiles demo_host
                     [ lit "/music/corrupt.mp3"; lit "/music/b.wav";
                       lit "/music/unreadable.wav"; lit "/docs/notes.txt";
                       lit "/music/a.MP3" ])
              (demo_session [Some (demo_clip "first" "/music/z.ogg")]) in
  AudioClip.path <$> omap id (clips (state s'))
  = [ lit "/music/z.ogg"; lit "/music/b.wav"; lit "/music/a.MP3" ]
  /\ (probes (trace s')).*1
     = [ lit "/music/corrupt.mp3"; lit "/music/b.wav";
         lit "/music/unreadable.wav"; lit "/music/a.MP3" ].
Proof. vm_compute. split; reflexivity. Qed.

(** ** Export *)

(** C1. The clip list handed to [stitch_audio] or [stitch_video] is the
    session list as it stands: every stitch call [handleExport] makes
    carries the clips of the state, element for element in their order;
    once the save dialog has given a destination there is exactly one such
    call; and the export leaves the list as it was. *)
Theorem handleExport_stitches_session_clips {World} (host : Host World) (s : St World) :
  let s' := after (handleExport host) s in
  exists evs,
    trace s' = trace s ++ evs
    /\ clips (state s') = clips (state s)
    /\ Forall (fun ev => forall cl, stitched_clips ev = Some cl -> cl = clips (state s)) evs
    /\ (forall defaultPath name extensions u p,
          DialogSave defaultPath name extensions (Resolved (Some (u :: p))) ∈ evs ->
          omap stitched_clips evs = [clips (state s)]).
Proof.
  destruct s as [a w t]. unfold handleExport. run; tidy_trace.
  all: eexists; split; [reflexivity|]; split; [reflexivity|].
  all: split; [repeat constructor; intros cl Hcl; cbn in Hcl; congruence|].
  all: intros ? ? ? ? ? Hin.
  all: repeat match goal with
         | H : _ ∈ _ :: _ |- _ => apply elem_of_cons in H as [H | H]
         | H : _ ∈ [] |- _ => inversion H
         end; try discriminate.
  all: reflexivity.
Qed.

(** On the demo host, a list that is neither sorted nor free of repeats
    reaches [stitch_audio] as it is. *)
Example handleExport_demo :
  let session := [ Some (demo_clip "c" "/music/z.ogg"); Some (demo_clip "a" "/music/a.mp3");
                   Some (demo_clip "c" "/music/z.ogg") ] in
  omap stitched_clips (trace (after (handleExport demo_host) (demo_session session)))
  = [session].
Proof. vm_compute. reflexivity. Qed.

(** C2. With an empty clip list [handleExport] stops at its guards: it ends
    normally having shown one error toast; the host was not called (the
    world is as before and the trace gained only the toast: no dialog, no
    stitch command), and every cell of the state other than the toast is
    unchanged. *)
Theorem handleExport_empty_rejected {World} (host : Host World) (s : St World) :
  clips (state s) = [] ->
  exists message,
    handleExport host s
    = (Normal tt,
       mkSt (upd_toast (Some (Toast.mk Toast.error message)) (state s))
            (world s)
            (trace s ++ [ShowToast (Toast.mk Toast.error message)])).
Proof.
  destruct s as [a w t]. cbn [state world trace]. intros Hempty.
  unfold handleExport. unfold_M. rewrite Hempty. cbn [length Nat.eqb].
  destruct (isInTauri a); cbn [negb]; eexists; reflexivity.
Qed.

Lemma handleExport_empty_rejected_witness :
  clips (state (demo_session [])) = []
  /\ exists message,
       handleExport demo_host (demo_session [])
       = (Normal tt,
          mkSt (upd_toast (Some (Toast.mk Toast.error message)) (state (demo_session [])))
               (world (demo_session []))
               (trace (demo_session []) ++ [ShowToast (Toast.mk Toast.error message)])).
Proof.
  split; [reflexivity|].
  apply (handleExport_empty_rejected demo_host (demo_session [])). reflexivity.
Defined.

(** C6. A video export hands [stitch_video] the fit mode and the image of
    the session, and the encoder invocation built for the call holds a
    filter chain that scales preserving the aspect ratio and, when the fit
    mode of the session is [fit], pads and does not crop, and when it is
    [fill], crops and does not pad. *)
Theorem video_export_filter_chain {World} (host : Host World) (s : St World) :
  let s' := after (handleExport host) s in
  exists evs,
    trace s' = trace s ++ evs
    /\ Forall (fun ev =>
                 forall videoConfig, stitched_video_config ev = Some videoConfig ->
                   videoConfig
                   = VideoConfig.mk (image_path_of (backgroundImage (state s)))
                       (imageFitMode (state s))) evs
    /\ Forall (fun ev =>
                 forall args, Encoder.invocation ev = Some args ->
                   exists chain,
                     Encoder.VideoFilter chain ∈ args
                     /\ existsb Encoder.is_scale chain = true
                     /\ match imageFitMode (state s) with
                        | fit =>
                            existsb Encoder.is_pad chain = true
                            /\ existsb Encoder.is_crop chain = false
                        | fill =>
                            existsb Encoder.is_crop chain = true
                            /\ existsb Encoder.is_pad chain = false
                        end) evs.
Proof.
  intros s'. subst s'. destruct s as [a w t].
  unfold handleExport, image_path_of. run; tidy_trace.
  all: eexists; split; [reflexivity|].
  all: split; repeat constructor.
  all: try (intros cfg Hcfg; cbn in Hcfg; congruence).
  all: intros args Hargs; cbn in Hargs; try discriminate Hargs.
  all: injection Hargs as <-.
  all: eexists; split; [do 2 right; left|].
  all: cbn [state imageFitMode VideoConfig.fit_mode].
  all: destruct (imageFitMode a); repeat split; reflexivity.
Qed.

(** On the demo host, a video export with an image held. *)
Example video_export_demo :
  let image := BackgroundImage.mk (lit "/img/cover.png") (lit "cover.png") 800%float 600%float in
  let s := mkSt (upd_exportFormat mp4
                   (upd_backgroundImage (Some image)
                      (upd_imageFitMode fill
                         (state (demo_session [Some (demo_clip "a" "/music/a.mp3")])))))
             0%nat [] in
  omap stitched_video_config (trace (after (handleExport demo_host) s))
  = [VideoConfig.mk (Some (lit "/img/cover.png")) fill]
  /\ omap Encoder.invocation (trace (after (handleExport demo_host) s))
     = [[ Encoder.LoopImage (lit "/img/cover.png");
          Encoder.ConcatList [lit "/music/a.mp3"];
          Encoder.VideoFilter
            [ Encoder.ScalePreservingAspect 1920 1080 true; Encoder.Crop 1920 1080 ];
          Encoder.AudioBitrate (lit "256k");
          Encoder.Output (lit "/out/combined_audio.mp4") ]].
Proof. vm_compute. split; reflexivity. Qed.

(** ** The background image *)

(** C8. The session holds at most one image (a [BackgroundImage] or
    [null]): when [handleSelectImage] gets a valid answer from
    [get_image_info] for the file selected, the image held afterwards is
    the one selected, whatever was held before; [handleRemoveImage] leaves
    none. *)
Theorem background_image_replaced_or_removed {World} (host : Host World) (s : St World) :
  (forall selected info evs,
      trace (after (handleSelectImage host) s) = trace s ++ evs ->
      InvokeGetImageInfo selected (Resolved info) ∈ evs ->
      ImageInfo.valid info = true ->
      backgroundImage (state (after (handleSelectImage host) s))
      = Some (BackgroundImage.mk selected (filename_of selected)
                (ImageInfo.width info) (ImageInfo.height info)))
  /\ backgroundImage (state (after handleRemoveImage s)) = None.
Proof.
  split; [|reflexivity].
  destruct s as [a w t]. intros selected info evs. unfold handleSelectImage.
  run; tidy_trace; intros Htrace Hin Hvalid.
  all: apply app_inv_head in Htrace; subst evs.
  all: repeat match goal with
         | H : _ ∈ _ :: _ |- _ => apply elem_of_cons in H as [H | H]
         | H : _ ∈ [] |- _ => inversion H
         end; try discriminate.
  all: match goal with
       | H : InvokeGetImageInfo _ _ = InvokeGetImageInfo _ _ |- _ =>
           injection H as <- Hinfo
       end.
  all: try discriminate Hinfo.
  all: subst; try congruence.
  all: reflexivity.
Qed.

Lemma background_image_replaced_or_removed_witness :
  let old := BackgroundImage.mk (lit "/img/old.jpg") (lit "old.jpg") 10%float 10%float in
  let s := mkSt (upd_backgroundImage (Some old) (state (demo_session []))) 0%nat [] in
  backgroundImage (state (after (handleSelectImage demo_host) s))
  = Some (BackgroundImage.mk (lit "/img/cover.png") (lit "cover.png") 800%float 600%float)
  /\ backgroundImage (state (after handleRemoveImage s)) = None.
Proof.
  intros old s.
  destruct (background_image_replaced_or_removed demo_host s) as [Hselect Hremove].
  split; [|exact Hremove].
  apply (Hselect (lit "/img/cover.png")
           (ImageInfo.mk 800%float 600%float true None)
           (trace (after (handleSelectImage demo_host) s))).
  - reflexivity.
  - vm_compute. do 2 right. left.
  - reflexivity.
Defined.

(** ** Arrays *)

Section ArrayFacts.

Context {A : Type}.
Implicit Types (arr : list (option A)) (v x : option A).

Lemma get_lookup arr i x : arr !! i = Some x -> JSArray.get arr i = x.
Proof. unfold JSArray.get. intros ->. reflexivity. Qed.

Lemma get_elem_of arr i : JSArray.get arr i = None \/ JSArray.get arr i ∈ arr.
Proof.
  unfold JSArray.get. destruct (arr !! i) as [x|] eqn:Hi; [right | left; reflexivity].
  eapply list_elem_of_lookup_2. exact Hi.
Qed.

(** After [arr[i] = v], position [i] holds [v], in or out of range. *)
Lemma set_lookup_eq arr i v : JSArray.set arr i v !! i = Some v.
Proof.
  unfold JSArray.set. case_decide as Hi.
  - apply list_lookup_insert_eq. exact Hi.
  - rewrite lookup_app_r by lia. rewrite lookup_app_r; rewrite length_replicate; [|lia].
    replace (i - length arr - (i - length arr))%nat with 0%nat by lia. reflexivity.
Qed.

Lemma set_lookup_ne arr i v k x :
  k <> i -> arr !! k = Some x -> JSArray.set arr i v !! k = Some x.
Proof.
  intros Hne Hk. unfold JSArray.set. case_decide as Hi.
  - rewrite list_lookup_insert_ne by congruence. exact Hk.
  - apply lookup_app_l_Some. exact Hk.
Qed.

Lemma set_elem_of arr i v x :
  x ∈ JSArray.set arr i v -> x ∈ arr \/ x = v \/ x = None.
Proof.
  unfold JSArray.set. case_decide as Hi.
  - intros Hin. apply list_elem_of_lookup in Hin as [k Hk].
    destruct (decide (k = i)) as [-> | Hne].
    + rewrite list_lookup_insert_eq in Hk by exact Hi. right. left. congruence.
    + rewrite list_lookup_insert_ne in Hk by congruence.
      left. eapply list_elem_of_lookup_2. exact Hk.
  - rewrite !elem_of_app, elem_of_replicate, list_elem_of_singleton. tauto.
Qed.

Lemma set_in_range arr i v :
  (i < length arr)%nat -> JSArray.set arr i v = <[i:=v]> arr.
Proof. unfold JSArray.set. intros Hi. rewrite decide_True by exact Hi. reflexivity. Qed.

(** Taking one element out with [splice] and putting what came out back
    in: a rearrangement when the index was in range, and otherwise the
    array with one [undefined] more. *)
Lemma splice_out_in_range arr start x :
  arr !! start = Some x ->
  JSArray.splice_out arr start = ([x], delete start arr).
Proof.
  intros Hx. unfold JSArray.splice_out. rewrite delete_take_drop. f_equal.
  rewrite <- (take_drop_middle _ _ _ Hx) at 1.
  rewrite drop_app_length'; [reflexivity|].
  symmetry. apply length_take_le. apply lookup_lt_Some in Hx. lia.
Qed.

Lemma splice_out_past_end arr start :
  (length arr <= start)%nat -> JSArray.splice_out arr start = ([], arr).
Proof.
  intros Hlen. unfold JSArray.splice_out.
  rewrite (drop_ge arr start), (drop_ge arr (S start)), (take_ge arr start) by lia.
  rewrite app_nil_r. reflexivity.
Qed.

Lemma splice_in_Permutation arr index v : JSArray.splice_in arr index v ≡ₚ v :: arr.
Proof.
  unfold JSArray.splice_in. rewrite <- Permutation_middle, take_drop. reflexivity.
Qed.

End ArrayFacts.

(** The exchange of [moveClip], at two different positions of the array. *)
Lemma exchange_swapped (l : list slot) i j :
  (i < length l)%nat -> (j < length l)%nat -> i <> j -> swapped l (exchange l i j) i j.
Proof.
  intros Hi Hj Hne. unfold exchange.
  destruct (lookup_lt_is_Some_2 l i Hi) as [x Hx].
  destruct (lookup_lt_is_Some_2 l j Hj) as [y Hy].
  rewrite (get_lookup _ _ _ Hx), (get_lookup _ _ _ Hy).
  rewrite (set_in_range l) by exact Hi.
  rewrite set_in_range by (rewrite length_insert; exact Hj).
  repeat split.
  - rewrite list_lookup_insert_ne by congruence.
    rewrite list_lookup_insert_eq by exact Hi. congruence.
  - rewrite list_lookup_insert_eq by (rewrite length_insert; exact Hj). congruence.
  - intros k Hki Hkj. rewrite !list_lookup_insert_ne by congruence. reflexivity.
  - rewrite !length_insert. reflexivity.
  - apply Permutation_insert_swap; assumption.
Qed.

(** Whatever the indices, the exchange keeps every element of the array and
    brings in nothing but [undefined]. *)
Lemma exchange_keeps (l : list slot) i j x : x ∈ l -> x ∈ exchange l i j.
Proof.
  intros Hin. apply list_elem_of_lookup in Hin as [k Hk]. unfold exchange.
  destruct (decide (k = i)) as [-> | Hki].
  - rewrite (get_lookup _ _ _ Hk). apply (list_elem_of_lookup_2 _ j). apply set_lookup_eq.
  - destruct (decide (k = j)) as [Hkj | Hkj].
    + subst k. rewrite (get_lookup _ _ _ Hk).
      apply (list_elem_of_lookup_2 _ i).
      apply set_lookup_ne; [congruence|]. apply set_lookup_eq.
    + apply (list_elem_of_lookup_2 _ k). apply set_lookup_ne; [exact Hkj|].
      apply set_lookup_ne; [exact Hki | exact Hk].
Qed.

Lemma exchange_adds_nothing (l : list slot) i j c :
  Some c ∈ exchange l i j -> Some c ∈ l.
Proof.
  unfold exchange. intros Hin.
  apply set_elem_of in Hin as [Hin | [Heq | Heq]]; [|rewrite Heq|discriminate].
  - apply set_elem_of in Hin as [Hin | [Heq | Heq]]; [exact Hin|rewrite Heq|discriminate].
    destruct (get_elem_of l j) as [Hnone | Hget]; [|exact Hget].
    rewrite Hnone in Heq. discriminate.
  - destruct (get_elem_of l i) as [Hnone | Hget]; [|exact Hget].
    rewrite Hnone in Heq. discriminate.
Qed.

(** The two [splice] calls of a drag: the array rearranged, or, from an
    index past the end, the array with one [undefined] more. *)
Lemma reorder_Permutation (l : list slot) dragged index :
  reorder l dragged index ≡ₚ l \/ reorder l dragged index ≡ₚ None :: l.
Proof.
  unfold reorder. destruct (l !! dragged) as [x|] eqn:Hx.
  - left. rewrite (splice_out_in_range _ _ _ Hx). cbn.
    rewrite splice_in_Permutation. symmetry. apply delete_Permutation. exact Hx.
  - right. apply lookup_ge_None in Hx. rewrite (splice_out_past_end _ _ Hx). cbn.
    apply splice_in_Permutation.
Qed.

Lemma reorder_keeps (l : list slot) dragged index x : x ∈ l -> x ∈ reorder l dragged index.
Proof.
  intros Hin. destruct (reorder_Permutation l dragged index) as [-> | ->];
    [exact Hin | right; exact Hin].
Qed.

Lemma reorder_adds_nothing (l : list slot) dragged index c :
  Some c ∈ reorder l dragged index -> Some c ∈ l.
Proof.
  destruct (reorder_Permutation l dragged index) as [-> | ->]; [tauto|].
  intros Hin. apply elem_of_cons in Hin as [Heq | Hin]; [discriminate | exact Hin].
Qed.

(** [filter] for [removeClip]: clips with another id stay, in order, and
    nothing is added. *)
Lemma filter_id_ne_keeps id l kept c :
  filter_id_ne id l = Normal kept ->
  Some c ∈ l -> AudioClip.id c <> id -> Some c ∈ kept.
Proof.
  revert kept. induction l as [|[c0|] l IH]; intros kept Hf Hin Hid.
  - inversion Hin.
  - cbn in Hf. destruct (filter_id_ne id l) as [kept0|] eqn:Hrec; [|discriminate].
    injection Hf as <-. apply elem_of_cons in Hin as [Heq | Hin].
    + injection Heq as <-. rewrite decide_True by exact Hid. left.
    + specialize (IH kept0 eq_refl Hin Hid). case_decide; [right|]; exact IH.
  - discriminate.
Qed.

Lemma filter_id_ne_adds_nothing id l kept x :
  filter_id_ne id l = Normal kept -> x ∈ kept -> x ∈ l.
Proof.
  revert kept. induction l as [|[c0|] l IH]; intros kept Hf Hin.
  - injection Hf as <-. exact Hin.
  - cbn in Hf. destruct (filter_id_ne id l) as [kept0|] eqn:Hrec; [|discriminate].
    injection Hf as <-. case_decide.
    + apply elem_of_cons in Hin as [-> | Hin]; [left | right; eauto].
    + right. eauto.
  - discriminate.
Qed.

(** The clips as a multiset under the exchange of [moveClip], the two
    [splice] calls of a drag, and the filter of [removeClip]. *)
Lemma clips_of_insert_None (l : list slot) j :
  clips_of (<[j:=None]> l) = clips_of (delete j l).
Proof.
  revert j. induction l as [|x l IH]; intros [|j]; try reflexivity.
  cbn. unfold clips_of in IH. rewrite IH. reflexivity.
Qed.

Lemma exchange_clips (l : list slot) i j :
  (j < length l)%nat -> i = (j + 1)%nat \/ j = (i + 1)%nat ->
  clips_of (exchange l i j) ≡ₚ clips_of l.
Proof.
  intros Hj Hij. destruct (decide (i < length l)%nat) as [Hi | Hi].
  - apply omap_Permutation. apply exchange_swapped; [exact Hi | exact Hj | lia].
  - assert (i = length l) as -> by lia.
    destruct (lookup_lt_is_Some_2 l j Hj) as [x Hx].
    unfold exchange, JSArray.get.
    rewrite Hx, (lookup_ge_None_2 l (length l)) by lia. cbn [default].
    unfold JSArray.set at 2. rewrite decide_False by lia.
    rewrite Nat.sub_diag. cbn [replicate Datatypes.app].
    rewrite set_in_range by (rewrite length_app; lia).
    rewrite insert_app_l by exact Hj.
    unfold clips_of. rewrite omap_app. fold (clips_of (<[j:=None]> l)).
    rewrite clips_of_insert_None. unfold clips_of.
    rewrite (delete_Permutation l j x Hx) at 2. cbn [omap].
    destruct x as [c|]; cbn.
    + rewrite Permutation_app_comm. reflexivity.
    + rewrite app_nil_r. reflexivity.
Qed.

Lemma reorder_clips (l : list slot) dragged index :
  clips_of (reorder l dragged index) ≡ₚ clips_of l.
Proof.
  unfold clips_of.
  destruct (reorder_Permutation l dragged index) as [-> | ->]; reflexivity.
Qed.

Lemma filter_id_ne_clips id l kept :
  filter_id_ne id l = Normal kept ->
  clips_of kept = filter (fun c => AudioClip.id c <> id) (clips_of l).
Proof.
  revert kept. induction l as [|[c|] l IH]; intros kept Hf.
  - injection Hf as <-. reflexivity.
  - cbn in Hf. destruct (filter_id_ne id l) as [kept0|] eqn:Hrec; [|discriminate].
    injection Hf as <-. specialize (IH kept0 eq_refl).
    change (clips_of (Some c :: l)) with (c :: clips_of l).
    case_decide as Hid.
    + rewrite filter_cons_True by exact Hid.
      change (clips_of (Some c :: kept0)) with (c :: clips_of kept0). rewrite IH. reflexivity.
    + rewrite filter_cons_False by (intros Hne; exact (Hne Hid)). exact IH.
  - discriminate.
Qed.

(** ** Moving a clip *)

(** C9. [moveClip] at a valid index: at the first position with [up], or
    at the last with [down], the clip list is left as it is; at every other
    position the clips at the index and at its neighbour in the direction
    are exchanged, every other position, the length and the multiset of
    elements being as before. *)
Theorem moveClip_swaps_neighbours {World} (s : St World) (index : nat) (direction : Direction) :
  let l := clips (state s) in
  let l' := clips (state (after (moveClip index direction) s)) in
  (index < length l)%nat ->
  match direction with
  | up => if decide (index = 0%nat) then l' = l else swapped l l' index (index - 1)
  | down =>
      if decide (index = (length l - 1)%nat) then l' = l else swapped l l' index (index + 1)
  end.
Proof.
  intros l l' Hindex. subst l l'. destruct s as [a w t]. cbn [state] in *.
  unfold moveClip. unfold_M. destruct direction.
  - case_decide as H0.
    + subst index. reflexivity.
    + destruct (Z.ltb_spec (Z.of_nat index - 1) 0); [lia|].
      destruct (Z.leb_spec (Z.of_nat (length (clips a))) (Z.of_nat index - 1)); [lia|].
      cbn [orb clips upd_clips].
      replace (Z.to_nat (Z.of_nat index - 1)) with (index - 1)%nat by lia.
      apply exchange_swapped; lia.
  - destruct (Z.ltb_spec (Z.of_nat index + 1) 0); [lia|].
    case_decide as Hlast.
    + destruct (Z.leb_spec (Z.of_nat (length (clips a))) (Z.of_nat index + 1)); [|lia].
      reflexivity.
    + destruct (Z.leb_spec (Z.of_nat (length (clips a))) (Z.of_nat index + 1)); [lia|].
      cbn [orb clips upd_clips].
      replace (Z.to_nat (Z.of_nat index + 1)) with (index + 1)%nat by lia.
      apply exchange_swapped; lia.
Qed.

Lemma moveClip_swaps_neighbours_witness :
  let a := Some (demo_clip "a" "/music/a.mp3") in
  let b := Some (demo_clip "b" "/music/b.wav") in
  let c := Some (demo_clip "c" "/music/c.ogg") in
  (1 < length (clips (state (demo_session [a; b; c]))))%nat
  /\ swapped [a; b; c]
       (clips (state (after (moveClip 1 down) (demo_session [a; b; c])))) 1 2.
Proof.
  intros a b c. split; [cbn; lia|].
  apply (moveClip_swaps_neighbours (demo_session [a; b; c]) 1 down). cbn. lia.
Defined.

Example moveClip_demo :
  let a := Some (demo_clip "a" "/music/a.mp3") in
  let b := Some (demo_clip "b" "/music/b.wav") in
  let c := Some (demo_clip "c" "/music/c.ogg") in
  clips (state (after (moveClip 1 down) (demo_session [a; b; c]))) = [a; c; b]
  /\ clips (state (after (moveClip 0 up) (demo_session [a; b; c]))) = [a; b; c]
  /\ clips (state (after (moveClip 2 down) (demo_session [a; b; c]))) = [a; b; c]
  /\ clips (state (after (moveClip 3 up) (demo_session [a; b; c]))) = [a; b; None; c].
Proof. vm_compute. repeat split; reflexivity. Qed.

(** ** Every event of the session *)

Section SessionFacts.

Context {World : Type} (host : Host World).

Lemma appended_bitrate a a' added : appended a a' added -> bitrate a' = bitrate a.
Proof. intros (a1 & Htoast & ->). exact (only_toast_bitrate _ _ Htoast). Qed.

(** A call of [addAudioFiles] whose promise is dropped. *)
Lemma addAudioFiles_summary paths (s : St World) :
  exists evs added,
    trace (snd (addAudioFiles host paths s)) = trace s ++ evs
    /\ Forall (fun e => stitched_bitrate e = None) evs
    /\ bitrate (state (snd (addAudioFiles host paths s))) = bitrate (state s)
    /\ clips (state (snd (addAudioFiles host paths s))) = clips (state s) ++ added.
Proof.
  destruct (addAudioFiles_log host paths s)
    as (evs & added & a' & w' & c & Hrun & Happ & Hlog & _).
  rewrite Hrun. cbn [snd trace state]. exists evs, added.
  split; [reflexivity|].
  repeat split; eauto using add_log_no_stitch, appended_bitrate, appended_clips.
Qed.

Lemma no_stitch_bitrate (br0 : jsstring) evs :
  Forall (fun e => stitched_bitrate e = None) evs ->
  Forall (fun e => forall br, stitched_bitrate e = Some br -> br = br0) evs.
Proof.
  intros H. eapply Forall_impl; [exact H|]. intros e He br Hbr. congruence.
Qed.

(** Closes the summary of a handler that calls nothing but the host. *)
Ltac close_summary :=
  first [ eexists; split; [reflexivity|]
        | exists []; split; [symmetry; apply app_nil_r|] ];
  (split; [repeat constructor; intros br Hbr; cbn in Hbr; congruence|]);
  (split; [reflexivity|]).

(** Closes the summary of a handler that ends in a dropped
    [addAudioFiles] call. *)
Ltac close_add_summary :=
  match goal with
  | H : addAudioFiles _ ?paths ?st = _ |- _ =>
      let evs := fresh "evs" in
      let added := fresh "added" in
      let Htrace := fresh "Htrace" in
      let Hquiet := fresh "Hquiet" in
      let Hbitrate := fresh "Hbitrate" in
      let Hclips := fresh "Hclips" in
      destruct (addAudioFiles_summary paths st)
        as (evs & added & Htrace & Hquiet & Hbitrate & Hclips);
      rewrite H in Htrace, Hbitrate, Hclips;
      cbn [snd trace state] in Htrace, Hbitrate, Hclips;
      rewrite Htrace, Hbitrate, Hclips; tidy_trace;
      eexists; split; [reflexivity|];
      split;
      [ repeat (apply Forall_cons; split; [intros br Hbr; cbn in Hbr; congruence|]);
        apply no_stitch_bitrate; exact Hquiet
      | split; [reflexivity | exists added; reflexivity] ]
  end.

Lemma handler_summary (ev : UiEvent) (s : St World) :
  session_step ev s (after (handler host ev) s).
Proof.
  destruct s as [a w t]. unfold session_step.
  destruct ev; cbn [handler clips_change].
  - (* Mount *) unfold onMount. run; tidy_trace; close_summary. all: reflexivity.
  - (* ClickDropzone *) unfold handleBrowse. run; tidy_trace.
    all: first [ close_add_summary
               | close_summary; exists []; symmetry; apply app_nil_r ].
  - (* FileInputChange *) unfold handleFileInput. run; tidy_trace.
    all: first [ close_add_summary
               | close_summary; exists []; symmetry; apply app_nil_r ].
  - (* ClickSelectImage *) unfold handleSelectImage. run; tidy_trace; close_summary.
    all: reflexivity.
  - (* ClickRemoveImage *) unfold handleRemoveImage. run; close_summary. reflexivity.
  - (* DragOver *) unfold handleDragOver. run; close_summary. reflexivity.
  - (* DragLeave *) unfold handleDragLeave. run; close_summary. reflexivity.
  - (* Drop *) unfold handleDrop. run; tidy_trace.
    all: first [ close_add_summary
               | close_summary; exists []; symmetry; apply app_nil_r ].
  - (* ClickMove *) unfold moveClip. run; close_summary.
    all: cbn [clips upd_clips]; first [ left; reflexivity | right ].
    all: match goal with
         | H : (_ <? 0) || (_ <=? _) = false |- _ =>
             apply orb_false_elim in H as [?%Z.ltb_ge ?%Z.leb_gt]
         end.
    all: eexists; split; [|split; [|reflexivity]]; lia.
  - (* ClickRemove *) unfold removeClip. run; close_summary.
    all: cbn [clips upd_clips]; first [ left; reflexivity | right; reflexivity ].
  - (* ItemDragStart *) unfold handleDragStart. run; close_summary. reflexivity.
  - (* ItemDragEnd *) unfold handleDragEnd. run; close_summary. reflexivity.
  - (* ItemDragOver *) unfold handleDragOverItem. run; close_summary.
    all: cbn [clips upd_clips upd_draggedIndex];
      first [ left; reflexivity | right; eexists; reflexivity ].
  - (* ClickExport *) unfold handleExport. run; tidy_trace; close_summary.
    all: reflexivity.
  - (* ClickFormat *) run; close_summary. reflexivity.
  - (* ClickFitMode *) run; close_summary. reflexivity.
  - (* ChangeOutputName *) run; close_summary. reflexivity.
  - (* ChangeBitrate *) run; close_summary. reflexivity.
  - (* CloseToast *) run; close_summary. reflexivity.
  - (* ToastTimeout *) run; close_summary. reflexivity.
Qed.

End SessionFacts.

(** ** Clips under the session's events *)

(** C5. A clip of the session list is still in the list, with its id,
    path, name, duration and size, after every event of the session other
    than the removal that targets its id.  An event that adds no files (a
    move, a drag, a removal, an export, a setting) leaves no clip in the
    list that was not there with the same fields; unless it is a removal,
    the clips afterwards are the clips before, rearranged at most; and a
    removal leaves the list alone (when it throws) or takes out the clips
    with the targeted id and no other. *)
Theorem session_keeps_clips {World} (host : Host World) (ev : UiEvent) (s : St World)
    (c : AudioClip.t) :
  Some c ∈ clips (state s) ->
  (forall id, ev = ClickRemove id -> id <> AudioClip.id c) ->
  let s' := after (handler host ev) s in
  Some c ∈ clips (state s')
  /\ (adds_clips ev = false ->
      forall c', Some c' ∈ clips (state s') -> Some c' ∈ clips (state s))
  /\ (adds_clips ev = false -> (forall id, ev <> ClickRemove id) ->
      clips_of (clips (state s')) ≡ₚ clips_of (clips (state s)))
  /\ (forall id, ev = ClickRemove id ->
      clips (state s') = clips (state s)
      \/ clips_of (clips (state s'))
         = filter (fun c' => AudioClip.id c' <> id) (clips_of (clips (state s)))).
Proof.
  intros Hin Hother s'.
  destruct (handler_summary host ev s) as (evs & _ & _ & _ & Hclips).
  fold s' in Hclips. destruct ev; cbn [clips_change adds_clips] in Hclips |- *.
  all: try (rewrite Hclips;
            split; [exact Hin|];
            split; [intros _ c' Hc'; exact Hc'|];
            split; [reflexivity | discriminate]).
  all: try (destruct Hclips as (added & ->);
            split; [apply elem_of_app; left; exact Hin|];
            split; [discriminate|];
            split; discriminate).
  - (* ClickMove *) destruct Hclips as [-> | (j & Hj & Hij & ->)].
    + split; [exact Hin|]. split; [intros _ c' Hc'; exact Hc'|].
      split; [reflexivity | discriminate].
    + split; [apply exchange_keeps; exact Hin|].
      split; [intros _ c' Hc'; exact (exchange_adds_nothing _ _ _ _ Hc')|].
      split; [intros _ _; exact (exchange_clips _ _ _ Hj Hij) | discriminate].
  - (* ClickRemove *) destruct Hclips as [-> | Hfilter].
    + split; [exact Hin|]. split; [intros _ c' Hc'; exact Hc'|].
      split; [reflexivity|]. intros id' _. left. reflexivity.
    + split.
      { eapply filter_id_ne_keeps; [exact Hfilter | exact Hin|].
        intros Heq. exact (Hother id eq_refl (eq_sym Heq)). }
      split; [intros _ c' Hc'; exact (filter_id_ne_adds_nothing _ _ _ _ Hfilter Hc')|].
      split; [intros _ Hne; destruct (Hne id eq_refl)|].
      intros id' Heq. injection Heq as <-. right.
      exact (filter_id_ne_clips _ _ _ Hfilter).
  - (* ItemDragOver *) destruct Hclips as [-> | (dragged & ->)].
    + split; [exact Hin|]. split; [intros _ c' Hc'; exact Hc'|].
      split; [reflexivity | discriminate].
    + split; [apply reorder_keeps; exact Hin|].
      split; [intros _ c' Hc'; exact (reorder_adds_nothing _ _ _ _ Hc')|].
      split; [intros _ _; apply reorder_clips | discriminate].
Qed.

Lemma session_keeps_clips_witness :
  Some (demo_clip "b" "/music/b.wav") ∈ clips (state demo_dragging)
  /\ (forall id, ItemDragOver 0 = ClickRemove id -> id <> AudioClip.id (demo_clip "b" "/music/b.wav"))
  /\ let s' := after (handler demo_host (ItemDragOver 0)) demo_dragging in
     Some (demo_clip "b" "/music/b.wav") ∈ clips (state s')
     /\ clips_of (clips (state s')) ≡ₚ clips_of (clips (state demo_dragging)).
Proof.
  assert (Some (demo_clip "b" "/music/b.wav") ∈ clips (state demo_dragging)) as Hin.
  { cbn. right. left. }
  assert (forall id, ItemDragOver 0 = ClickRemove id ->
                     id <> AudioClip.id (demo_clip "b" "/music/b.wav")) as Hother.
  { intros id Heq. discriminate Heq. }
  split; [exact Hin|]. split; [exact Hother|].
  destruct (session_keeps_clips demo_host (ItemDragOver 0) demo_dragging _ Hin Hother)
    as (Hkept & _ & Hsame & _).
  split; [exact Hkept|]. apply Hsame; [reflexivity | discriminate].
Defined.

(** X3. [handleDragOverItem] with a dragged index past the end of the
    list (an index kept from before a removal): [splice] takes nothing
    out, and [undefined] is put in at the position hovered, between the
    clips, which all stay in their order. *)
Theorem handleDragOverItem_stale_index {World} (s : St World) (dragged index : nat) :
  draggedIndex (state s) = Some dragged ->
  (length (clips (state s)) <= dragged)%nat ->
  dragged <> index ->
  clips (state (after (handleDragOverItem index) s))
  = take index (clips (state s)) ++ None :: drop index (clips (state s)).
Proof.
  destruct s as [a w t]. cbn [state]. intros Hdragged Hlen Hne.
  unfold handleDragOverItem. unfold_M. rewrite Hdragged.
  rewrite decide_False by exact Hne. cbn [clips upd_clips upd_draggedIndex].
  unfold reorder. rewrite (splice_out_past_end _ _ Hlen). reflexivity.
Qed.

Lemma handleDragOverItem_stale_index_witness :
  let s := mkSt (upd_draggedIndex (Some 2%nat)
                   (state (demo_session [ Some (demo_clip "c" "/music/c.ogg");
                                          Some (demo_clip "b" "/music/b.wav") ])))
             0%nat [] in
  draggedIndex (state s) = Some 2%nat
  /\ (length (clips (state s)) <= 2)%nat
  /\ 2%nat <> 0%nat
  /\ clips (state (after (handleDragOverItem 0) s))
     = [ None; Some (demo_clip "c" "/music/c.ogg"); Some (demo_clip "b" "/music/b.wav") ].
Proof.
  intros s. split; [reflexivity|]. split; [cbn; lia|]. split; [discriminate|].
  apply (handleDragOverItem_stale_index s 2 0); [reflexivity | cbn; lia | discriminate].
Defined.

(** A drag from the last position to the first, then a removal, then a
    drag from the position the stale index still names: the clips that
    remain are untouched, and the list gains an [undefined]. *)
Example drag_demo :
  let a := Some (demo_clip "a" "/music/a.mp3") in
  let b := Some (demo_clip "b" "/music/b.wav") in
  let c := Some (demo_clip "c" "/music/c.ogg") in
  let s1 := after (handler demo_host (ItemDragStart 2)) demo_dragging in
  let s2 := after (handler demo_host (ItemDragOver 0)) s1 in
  let s3 := after (handler demo_host (ItemDragStart 2)) s2 in
  let s4 := after (handler demo_host (ClickRemove (lit "a"))) s3 in
  let s5 := after (handler demo_host (ItemDragOver 0)) s4 in
  clips (state s2) = [c; a; b]
  /\ clips (state s4) = [c; b]
  /\ clips (state s5) = [None; c; b].
Proof. vm_compute. repeat split; reflexivity. Qed.

(** ** The bitrate *)

(** C7. The bitrate starts at 256k, and in every reachable state of the
    session it is one of the values of [BITRATE_OPTIONS] (128k, 192k, 256k,
    320k), as is the bitrate of every stitch call made so far. *)
Theorem bitrate_in_options {World} (host : Host World) :
  (forall w : World, bitrate (state (initial w)) = lit "256k")
  /\ forall s : St World,
       reachable host s ->
       bitrate (state s) ∈ (BitrateOption.value <$> BITRATE_OPTIONS)
       /\ Forall (fun e =>
                    forall br, stitched_bitrate e = Some br ->
                      br ∈ (BitrateOption.value <$> BITRATE_OPTIONS)) (trace s).
Proof.
  split; [reflexivity|].
  induction 1 as [w | s ev s' _ [IHbitrate IHtrace] Hstep].
  - split; [|constructor]. cbn. do 2 right. left.
  - destruct Hstep as [s ev Hoffered].
    destruct (handler_summary host ev s) as (evs & Htrace & Hstitched & Hbitrate & _).
    split.
    + rewrite Hbitrate. destruct ev; try exact IHbitrate. exact Hoffered.
    + rewrite Htrace. apply Forall_app. split; [exact IHtrace|].
      eapply Forall_impl; [exact Hstitched|].
      intros e He br Hbr. rewrite (He br Hbr). exact IHbitrate.
Qed.

Lemma demo_run_reachable : reachable demo_host demo_run.
Proof.
  unfold demo_run.
  repeat (eapply reachable_step; [|apply step_handler]); try exact I.
  - apply reachable_initial.
  - cbn. do 3 right. left.
Defined.

Lemma bitrate_in_options_witness :
  reachable demo_host demo_run
  /\ bitrate (state demo_run) ∈ (BitrateOption.value <$> BITRATE_OPTIONS)
  /\ Forall (fun e =>
               forall br, stitched_bitrate e = Some br ->
                 br ∈ (BitrateOption.value <$> BITRATE_OPTIONS)) (trace demo_run).
Proof.
  split; [exact demo_run_reachable|].
  exact (proj2 (bitrate_in_options demo_host) demo_run demo_run_reachable).
Defined.

Example demo_run_stitched :
  omap stitched_bitrate (trace demo_run) = [lit "320k"]
  /\ length (clips (state demo_run)) = 1%nat.
Proof. vm_compute. split; reflexivity. Qed.

(** ** The extension test *)

(** C10 (defect of the code). [isSupportedAudio] takes the index of the
    last full stop in the name as given and cuts the lower-cased name
    there.  On a name that lower-casing lengthens before the full stop the
    cut falls short: [İstanbul.mp3] (U+0130, then [stanbul.mp3]) has its
    full stop at index 8, its lower-case form has it at index 9, the slice
    is [l.mp3], and the name is rejected although its extension [.mp3],
    lower-cased, is in [SUPPORTED_EXTENSIONS]. *)
Theorem isSupportedAudio_rejects_supported_extension :
  let filename := 304%N :: lit "stanbul.mp3" in
  JS.lastIndexOf filename JS.DOT = 8
  /\ JS.toLowerCase filename = 105%N :: 775%N :: lit "stanbul.mp3"
  /\ JS.substring (JS.toLowerCase filename) (JS.lastIndexOf filename JS.DOT) = lit "l.mp3"
  /\ isSupportedAudio filename = false
  /\ extension filename = Some (lit ".mp3")
  /\ has_supported_extension filename = true.
Proof. vm_compute. repeat split; reflexivity. Qed.

(** X1. On a name without U+0130, [isSupportedAudio] is the extension test
    of the specification: it accepts exactly the names whose part from the
    last full stop on, lower-cased, is in [SUPPORTED_EXTENSIONS]. *)
Theorem isSupportedAudio_extension_test (filename : jsstring) :
  304%N ∉ filename -> isSupportedAudio filename = has_supported_extension filename.
Proof.
  intros Hplain.
  destruct (has_supported_extension filename) eqn:Hext.
  - exact (isSupportedAudio_complete _ Hplain Hext).
  - exact (isSupportedAudio_has_extension _ Hext).
Qed.

Lemma isSupportedAudio_extension_test_witness :
  (304%N ∉ lit "Track 01.MP3")
  /\ isSupportedAudio (lit "Track 01.MP3") = has_supported_extension (lit "Track 01.MP3").
Proof.
  assert (304%N ∉ lit "Track 01.MP3") as Hplain.
  { intros Hin. apply (list_elem_of_In (A:=N)) in Hin. cbn in Hin.
    repeat (destruct Hin as [Hin | Hin]; [discriminate Hin|]). exact Hin. }
  split; [exact Hplain|].
  exact (isSupportedAudio_extension_test (lit "Track 01.MP3") Hplain).
Defined.

(** X2. A name without a full stop is rejected by [isSupportedAudio], and
    so is every name the extension test rejects. *)
Theorem isSupportedAudio_rejections (filename : jsstring) :
  (JS.DOT ∉ filename) \/ has_supported_extension filename = false ->
  isSupportedAudio filename = false.
Proof.
  intros [Hnodot | Hext]; apply isSupportedAudio_has_extension; [|exact Hext].
  unfold has_supported_extension. rewrite (extension_none _ Hnodot). reflexivity.
Qed.

Lemma isSupportedAudio_rejections_witness :
  ((JS.DOT ∉ lit "mp3") \/ has_supported_extension (lit "mp3") = false)
  /\ isSupportedAudio (lit "mp3") = false.
Proof.
  assert ((JS.DOT ∉ lit "mp3") \/ has_supported_extension (lit "mp3") = false) as H.
  { right. reflexivity. }
  split; [exact H|]. exact (isSupportedAudio_rejections (lit "mp3") H).
Defined.

(** ** File names *)

Lemma split_sep_plain (name : jsstring) :
  Forall (fun u => JS.is_sep u = false) name -> JS.split_sep name = [name].
Proof.
  induction 1 as [|u name Hu _ IH]; [reflexivity|].
  cbn. rewrite Hu, IH. reflexivity.
Qed.

Lemma split_sep_last (dir : jsstring) (sep : N) (name : jsstring) :
  JS.is_sep sep = true ->
  Forall (fun u => JS.is_sep u = false) name ->
  exists piece pieces, JS.split_sep (dir ++ sep :: name) = (piece :: pieces) ++ [name].
Proof.
  intros Hsep Hname. induction dir as [|u dir (piece & pieces & IH)].
  - exists [], []. cbn. rewrite Hsep, (split_sep_plain _ Hname). reflexivity.
  - cbn. rewrite IH. destruct (JS.is_sep u).
    + exists [], (piece :: pieces). reflexivity.
    + exists (u :: piece), pieces. reflexivity.
Qed.

(** X4. The display name of a path is its last component: what follows the
    last [/] or [\] when that is not empty, the whole path when the path
    ends in a separator, and the path itself when it has no separator. *)
Theorem filename_of_last_component (dir : jsstring) (sep : N) (name : jsstring) :
  JS.is_sep sep = true ->
  Forall (fun u => JS.is_sep u = false) name ->
  filename_of (dir ++ sep :: name)
  = match name with
    | [] => dir ++ [sep]
    | _ => name
    end
  /\ filename_of name = name.
Proof.
  intros Hsep Hname. unfold filename_of, JS.pop. split.
  - destruct (split_sep_last dir sep name Hsep Hname) as (piece & pieces & ->).
    rewrite last_snoc. destruct name; reflexivity.
  - rewrite (split_sep_plain _ Hname). destruct name; reflexivity.
Qed.

Lemma filename_of_last_component_witness :
  JS.is_sep 92%N = true
  /\ Forall (fun u => JS.is_sep u = false) (lit "Track 01.mp3")
  /\ filename_of (lit "C:\Music/radio" ++ 92%N :: lit "Track 01.mp3") = lit "Track 01.mp3"
  /\ filename_of (lit "Track 01.mp3") = lit "Track 01.mp3".
Proof.
  assert (Forall (fun u => JS.is_sep u = false) (lit "Track 01.mp3")) as Hname.
  { repeat constructor. }
  split; [reflexivity|]. split; [exact Hname|].
  exact (filename_of_last_component (lit "C:\Music/radio") 92%N (lit "Track 01.mp3")
           eq_refl Hname).
Defined.

(** X5. What the file picker's filter lets through passes the extension
    check: a name made of a stem without U+0130, a full stop and an
    extension that lower-cases to one of the picker's extensions is
    accepted by [isSupportedAudio]. *)
Theorem picker_extensions_supported (stem e : jsstring) :
  304%N ∉ stem ->
  JS.DOT ∉ e ->
  JS.toLowerCase e ∈ AUDIO_DIALOG_EXTENSIONS ->
  isSupportedAudio (stem ++ JS.DOT :: e) = true.
Proof.
  intros Hstem He Hpick. unfold isSupportedAudio.
  rewrite (substring_at_last_dot _ _ He).
  rewrite drop_ge by (rewrite (toLowerCase_length_plain _ Hstem); lia).
  apply includes_true. cbn [Datatypes.app].
  assert (Forall (fun x => JS.DOT :: x ∈ SUPPORTED_EXTENSIONS) AUDIO_DIALOG_EXTENSIONS)
    as Hall.
  { repeat constructor; apply (list_elem_of_In (A:=jsstring)); vm_compute; tauto. }
  exact (proj1 (Forall_forall _ _) Hall _ Hpick).
Qed.

Lemma picker_extensions_supported_witness :
  (304%N ∉ lit "news at 9")
  /\ (JS.DOT ∉ lit "FLAC")
  /\ JS.toLowerCase (lit "FLAC") ∈ AUDIO_DIALOG_EXTENSIONS
  /\ isSupportedAudio (lit "news at 9" ++ JS.DOT :: lit "FLAC") = true.
Proof.
  assert (304%N ∉ lit "news at 9") as Hstem.
  { intros Hin. apply (list_elem_of_In (A:=N)) in Hin. vm_compute in Hin.
    repeat (destruct Hin as [Hin | Hin]; [discriminate Hin|]). exact Hin. }
  assert (JS.DOT ∉ lit "FLAC") as He.
  { intros Hin. apply (list_elem_of_In (A:=N)) in Hin. vm_compute in Hin.
    repeat (destruct Hin as [Hin | Hin]; [discriminate Hin|]). exact Hin. }
  assert (JS.toLowerCase (lit "FLAC") ∈ AUDIO_DIALOG_EXTENSIONS) as Hpick.
  { apply (list_elem_of_In (A:=jsstring)). vm_compute. tauto. }
  split; [exact Hstem|]. split; [exact He|]. split; [exact Hpick|].
  exact (picker_extensions_supported _ _ Hstem He Hpick).
Defined.

(** X23. What the image picker's filter lets through passes the check of
    [handleSelectImage]: for a name made of a stem without U+0130, a full
    stop and an extension that lower-cases to one of the picker's
    extensions, the extension sliced from the name is a supported image
    extension. *)
Theorem image_picker_extensions_supported (stem e : jsstring) :
  304%N ∉ stem ->
  JS.DOT ∉ e ->
  JS.toLowerCase e ∈ IMAGE_DIALOG_EXTENSIONS ->
  JS.includes SUPPORTED_IMAGE_EXTENSIONS (sliced_extension (stem ++ JS.DOT :: e)) = true.
Proof.
  intros Hstem He Hpick. unfold sliced_extension.
  rewrite (substring_at_last_dot _ _ He).
  rewrite drop_ge by (rewrite (toLowerCase_length_plain _ Hstem); lia).
  apply includes_true. cbn [Datatypes.app].
  assert (Forall (fun x => JS.DOT :: x ∈ SUPPORTED_IMAGE_EXTENSIONS) IMAGE_DIALOG_EXTENSIONS)
    as Hall.
  { repeat constructor; apply (list_elem_of_In (A:=jsstring)); vm_compute; tauto. }
  exact (proj1 (Forall_forall _ _) Hall _ Hpick).
Qed.

Lemma image_picker_extensions_supported_witness :
  (304%N ∉ lit "cover art")
  /\ (JS.DOT ∉ lit "JPEG")
  /\ JS.toLowerCase (lit "JPEG") ∈ IMAGE_DIALOG_EXTENSIONS
  /\ JS.includes SUPPORTED_IMAGE_EXTENSIONS
       (sliced_extension (lit "cover art" ++ JS.DOT :: lit "JPEG")) = true.
Proof.
  assert (304%N ∉ lit "cover art") as Hstem.
  { intros Hin. apply (list_elem_of_In (A:=N)) in Hin. vm_compute in Hin.
    repeat (destruct Hin as [Hin | Hin]; [discriminate Hin|]). exact Hin. }
  assert (JS.DOT ∉ lit "JPEG") as He.
  { intros Hin. apply (list_elem_of_In (A:=N)) in Hin. vm_compute in Hin.
    repeat (destruct Hin as [Hin | Hin]; [discriminate Hin|]). exact Hin. }
  assert (JS.toLowerCase (lit "JPEG") ∈ IMAGE_DIALOG_EXTENSIONS) as Hpick.
  { apply (list_elem_of_In (A:=jsstring)). vm_compute. tauto. }
  split; [exact Hstem|]. split; [exact He|]. split; [exact Hpick|].
  exact (image_picker_extensions_supported _ _ Hstem He Hpick).
Defined.

(** ** More on export *)

(** Membership in a trace written out. *)
Ltac in_trace :=
  repeat match goal with
         | H : _ ∈ _ :: _ |- _ => apply elem_of_cons in H as [H | H]
         | H : _ ∈ [] |- _ => inversion H
         end.

(** X6. Past its two guards, [handleExport] ends with [isProcessing] false
    and has changed no other cell but the toast, whatever the dialog and
    the host answered: a cancelled dialog, a rejected promise and a failed
    stitch included. *)
Theorem handleExport_settles {World} (host : Host World) (s : St World) :
  isInTauri (state s) = true ->
  clips (state s) <> [] ->
  exists t,
    state (after (handleExport host) s) = upd_isProcessing false (upd_toast t (state s)).
Proof.
  destruct s as [a w t]. cbn [state]. intros Htauri Hclips.
  unfold handleExport. unfold_M. rewrite Htauri. cbn [negb].
  destruct (clips a) as [|c l] eqn:Hl; [congruence|]. cbn [length Nat.eqb].
  run. all: eexists; rewrite ?Hl; reflexivity.
Qed.

Lemma handleExport_settles_witness :
  let s := demo_session [Some (demo_clip "a" "/music/a.mp3")] in
  isInTauri (state s) = true
  /\ clips (state s) <> []
  /\ exists t,
       state (after (handleExport demo_host) s)
       = upd_isProcessing false (upd_toast t (state s)).
Proof.
  intros s. split; [reflexivity|]. split; [discriminate|].
  apply (handleExport_settles demo_host s); [reflexivity | discriminate].
Defined.

(** X7. An export calls the command of its format and writes where the
    user chose: [stitch_audio] is called only when the format is MP3,
    [stitch_video] only when it is MP4; the save dialog is opened on the
    output name with the extension of the format, filtered to that
    extension; and the destination of a stitch call is a path the dialog
    returned. *)
Theorem handleExport_follows_format {World} (host : Host World) (s : St World) :
  let s' := after (handleExport host) s in
  exists evs,
    trace s' = trace s ++ evs
    /\ Forall (fun ev =>
                 match ev with
                 | InvokeStitchAudio _ _ _ _ => exportFormat (state s) = mp3
                 | InvokeStitchVideo _ _ _ _ _ => exportFormat (state s) = mp4
                 | DialogSave defaultPath _ extensions _ =>
                     defaultPath
                     = outputName (state s) ++ lit "."
                         ++ format_extension (exportFormat (state s))
                     /\ extensions = [format_extension (exportFormat (state s))]
                 | _ => True
                 end) evs
    /\ (forall ev outputPath,
          ev ∈ evs -> stitched_output ev = Some outputPath ->
          exists defaultPath name extensions,
            DialogSave defaultPath name extensions (Resolved (Some outputPath)) ∈ evs).
Proof.
  destruct s as [a w t]. unfold handleExport. run; tidy_trace.
  all: eexists; split; [reflexivity|].
  all: cbn [state exportFormat format_extension].
  all: split; [repeat constructor; repeat split; reflexivity|].
  all: intros ev out Hin Hout; in_trace; subst ev; try discriminate Hout.
  all: injection Hout as <-; eexists _, _, _; right; left.
Qed.

(** X8. Cancelling the save dialog (it resolves to [null] or to an empty
    path) ends the export there: no stitch call is made, no toast is
    shown, and the state is as before but for [isProcessing], which is
    false. *)
Theorem handleExport_cancelled {World} (host : Host World) (s : St World)
    (evs : list Event) (defaultPath name : jsstring) (extensions : list jsstring)
    (r : option jsstring) :
  trace (after (handleExport host) s) = trace s ++ evs ->
  DialogSave defaultPath name extensions (Resolved r) ∈ evs ->
  r = None \/ r = Some [] ->
  omap stitched_clips evs = []
  /\ Forall (fun ev => ~ is_toast ev) evs
  /\ state (after (handleExport host) s) = upd_isProcessing false (state s).
Proof.
  destruct s as [a w t]. unfold handleExport. run; tidy_trace.
  all: intros Htrace Hin Hr; apply app_inv_head in Htrace; subst evs.
  all: in_trace; try discriminate.
  all: match goal with
       | H : DialogSave _ _ _ _ = DialogSave _ _ _ _ |- _ => injection H as _ _ _ Hres
       end.
  all: try discriminate Hres.
  all: destruct Hr as [Hr | Hr]; subst r; try discriminate.
  all: split; [reflexivity|]; split; [repeat constructor; intros [] | reflexivity].
Qed.

(** A host whose save dialog is cancelled. *)
Lemma handleExport_cancelled_witness :
  let host := {|
    window_has_tauri := window_has_tauri demo_host;
    import_tauri_apis := import_tauri_apis demo_host;
    check_ffmpeg := check_ffmpeg demo_host;
    get_audio_info := get_audio_info demo_host;
    get_image_info := get_image_info demo_host;
    stitch_audio := stitch_audio demo_host;
    stitch_video := stitch_video demo_host;
    dialog_open := dialog_open demo_host;
    dialog_save := fun _ _ _ w => (Resolved None, w);
    random_id := random_id demo_host
  |} in
  let s := demo_session [Some (demo_clip "a" "/music/a.mp3")] in
  omap stitched_clips (trace (after (handleExport host) s)) = []
  /\ Forall (fun ev => ~ is_toast ev) (trace (after (handleExport host) s))
  /\ state (after (handleExport host) s) = upd_isProcessing false (state s).
Proof.
  intros host s.
  apply (handleExport_cancelled host s (trace (after (handleExport host) s))
           (lit "combined_audio.mp3") (lit "MP3 Audio") [lit "mp3"] None).
  - reflexivity.
  - vm_compute. right. left.
  - left. reflexivity.
Defined.

(** X9. The toast an export ends with tells how the stitch call was
    answered: a success toast when the result says success, an error toast
    with the result's error (or "Export failed" when it has none) when it
    does not, and an error toast with the reason when the call was
    rejected. *)
Theorem handleExport_reports_outcome {World} (host : Host World) (s : St World)
    (evs : list Event) (ev : Event) (video : bool) (r : Promise StitchResult.t) :
  trace (after (handleExport host) s) = trace s ++ evs ->
  ev ∈ evs ->
  stitch_answer ev = Some (video, r) ->
  toast (state (after (handleExport host) s))
  = Some match r with
         | Resolved result =>
             if StitchResult.success result then
               Toast.mk Toast.success
                 ((if video then lit "Video" else lit "Audio")
                    ++ lit " exported successfully!")
             else
               Toast.mk Toast.error
                 (JS.or_else (StitchResult.error result) (lit "Export failed"))
         | Rejected reason => Toast.mk Toast.error (lit "Export error: " ++ reason)
         end.
Proof.
  destruct s as [a w t]. unfold handleExport. run; tidy_trace.
  all: intros Htrace Hin Hanswer; apply app_inv_head in Htrace; subst evs.
  all: in_trace; subst ev; try discriminate Hanswer.
  all: cbn in Hanswer; inversion Hanswer; subst.
  all: try congruence.
  all: reflexivity.
Qed.

Lemma handleExport_reports_outcome_witness :
  let s := demo_session [Some (demo_clip "a" "/music/a.mp3")] in
  toast (state (after (handleExport demo_host) s))
  = Some (Toast.mk Toast.success (lit "Audio exported successfully!")).
Proof.
  intros s.
  apply (handleExport_reports_outcome demo_host s
           (trace (after (handleExport demo_host) s))
           (InvokeStitchAudio (clips (state s)) (lit "/out/combined_audio.mp3") (lit "256k")
              (Resolved (StitchResult.mk true (Some (lit "/out/combined_audio.mp3")) None)))
           false
           (Resolved (StitchResult.mk true (Some (lit "/out/combined_audio.mp3")) None))).
  - reflexivity.
  - vm_compute. do 2 right. left.
  - reflexivity.
Defined.

(** X10. With MP3 as the format, [handleExport] is the [handleExport] of
    the audio-only version of the component: same completion, same state,
    same calls. *)
Theorem handleExport_mp3_is_audio_only {World} (host : Host World) (s : St World) :
  exportFormat (state s) = mp3 ->
  handleExport host s = AudioOnly.handleExport host s.
Proof.
  destruct s as [a w t]. cbn [state]. intros Hformat.
  unfold handleExport, AudioOnly.handleExport. unfold_M. rewrite Hformat. unfold_M.
  change (lit "." ++ lit "mp3") with (lit ".mp3").
  change (lit "Audio" ++ lit " exported successfully!")
    with (lit "Audio exported successfully!").
  repeat (branch; unfold_M); reflexivity.
Qed.

Lemma handleExport_mp3_is_audio_only_witness :
  let s := demo_session [Some (demo_clip "a" "/music/a.mp3")] in
  exportFormat (state s) = mp3
  /\ handleExport demo_host s = AudioOnly.handleExport demo_host s.
Proof.
  intros s. split; [reflexivity|].
  apply (handleExport_mp3_is_audio_only demo_host s). reflexivity.
Defined.

(** ** More on reordering and removal *)

Lemma moveClip_down {World} (s : St World) (index : nat) :
  (index + 1 < length (clips (state s)))%nat ->
  after (moveClip index down) s
  = mkSt (upd_clips (exchange (clips (state s)) index (index + 1)) (state s))
         (world s) (trace s).
Proof.
  destruct s as [a w t]. cbn [state world trace]. intros Hindex.
  unfold moveClip. unfold_M.
  destruct (Z.ltb_spec (Z.of_nat index + 1) 0); [lia|].
  destruct (Z.leb_spec (Z.of_nat (length (clips a))) (Z.of_nat index + 1)); [lia|].
  cbn [orb]. replace (Z.to_nat (Z.of_nat index + 1)) with (index + 1)%nat by lia.
  reflexivity.
Qed.

Lemma moveClip_up {World} (s : St World) (index : nat) :
  (0 < index <= length (clips (state s)))%nat ->
  after (moveClip index up) s
  = mkSt (upd_clips (exchange (clips (state s)) index (index - 1)) (state s))
         (world s) (trace s).
Proof.
  destruct s as [a w t]. cbn [state world trace]. intros Hindex.
  unfold moveClip. unfold_M.
  destruct (Z.ltb_spec (Z.of_nat index - 1) 0); [lia|].
  destruct (Z.leb_spec (Z.of_nat (length (clips a))) (Z.of_nat index - 1)); [lia|].
  cbn [orb]. replace (Z.to_nat (Z.of_nat index - 1)) with (index - 1)%nat by lia.
  reflexivity.
Qed.

Lemma swapped_back (l l1 l2 : list slot) i j :
  swapped l l1 i j -> swapped l1 l2 j i -> l2 = l.
Proof.
  intros (Hi & Hj & Hk & _) (Hj' & Hi' & Hk' & _).
  apply list_eq. intros k.
  destruct (decide (k = i)) as [-> | Hki]; [congruence|].
  destruct (decide (k = j)) as [-> | Hkj]; [congruence|].
  rewrite Hk' by congruence. apply Hk; congruence.
Qed.

Lemma exchange_length (l : list slot) i j :
  (i < length l)%nat -> (j < length l)%nat -> i <> j ->
  length (exchange l i j) = length l.
Proof. intros Hi Hj Hne. apply (exchange_swapped l i j Hi Hj Hne). Qed.

Lemma exchange_back (l : list slot) i j :
  (i < length l)%nat -> (j < length l)%nat -> i <> j ->
  exchange (exchange l i j) j i = l.
Proof.
  intros Hi Hj Hne.
  eapply swapped_back; [exact (exchange_swapped l i j Hi Hj Hne)|].
  apply exchange_swapped; rewrite ?exchange_length; auto.
Qed.

(** X11. Moving a clip down and then moving it up again, or up and then
    down again, gives back the clip list: the two order buttons of two
    neighbouring positions undo each other. *)
Theorem moveClip_undone {World} (s : St World) (index : nat) :
  (index + 1 < length (clips (state s)))%nat ->
  clips (state (after (moveClip (index + 1) up) (after (moveClip index down) s)))
  = clips (state s)
  /\ clips (state (after (moveClip index down) (after (moveClip (index + 1) up) s)))
     = clips (state s).
Proof.
  intros Hindex. split.
  - rewrite (moveClip_down s) by exact Hindex.
    rewrite moveClip_up; cbn [state clips upd_clips];
      [|rewrite exchange_length; lia].
    replace (index + 1 - 1)%nat with index by lia.
    apply exchange_back; lia.
  - rewrite (moveClip_up s) by lia.
    replace (index + 1 - 1)%nat with index by lia.
    rewrite moveClip_down; cbn [state clips upd_clips];
      [|rewrite exchange_length; lia].
    apply exchange_back; lia.
Qed.

Lemma moveClip_undone_witness :
  let s := demo_session [ Some (demo_clip "a" "/music/a.mp3");
                          Some (demo_clip "b" "/music/b.wav");
                          Some (demo_clip "c" "/music/c.ogg") ] in
  (1 + 1 < length (clips (state s)))%nat
  /\ clips (state (after (moveClip (1 + 1) up) (after (moveClip 1 down) s)))
     = clips (state s)
  /\ clips (state (after (moveClip 1 down) (after (moveClip (1 + 1) up) s)))
     = clips (state s).
Proof.
  intros s. assert (1 + 1 < length (clips (state s)))%nat as H by (cbn; lia).
  split; [exact H|]. exact (moveClip_undone s 1 H).
Defined.

(** X12. [moveClip] outside the list: with an index past the length, or
    at the length with [down], nothing changes; at the length with [up]
    (one past the last clip) the list grows: [undefined] takes the last
    position and the last clip follows it. *)
Theorem moveClip_outside {World} (s : St World) (index : nat) (direction : Direction) :
  (length (clips (state s)) <= index)%nat ->
  clips (state (after (moveClip index direction) s))
  = match direction with
    | down => clips (state s)
    | up =>
        if decide (index = length (clips (state s))) then
          match reverse (clips (state s)) with
          | [] => []
          | x :: rest => reverse rest ++ [None; x]
          end
        else clips (state s)
    end.
Proof.
  intros Hindex. destruct direction.
  - case_decide as Heq.
    + destruct (reverse (clips (state s))) as [|x rest] eqn:Hrev.
      * apply (f_equal reverse) in Hrev. rewrite reverse_involutive in Hrev.
        change (reverse []) with (@nil slot) in Hrev.
        destruct s as [a w t]. cbn [state] in *. unfold moveClip. unfold_M.
        rewrite Heq, Hrev. cbn. exact Hrev.
      * apply (f_equal reverse) in Hrev. rewrite reverse_involutive, reverse_cons in Hrev.
        assert (0 < index <= length (clips (state s)))%nat as Hup.
        { rewrite Heq, Hrev, length_app. cbn. lia. }
        rewrite moveClip_up by exact Hup.
        cbn [state clips upd_clips]. rewrite Heq, Hrev.
        rewrite length_app. cbn [length].
        replace (length (reverse rest) + 1 - 1)%nat with (length (reverse rest)) by lia.
        unfold exchange, JSArray.get.
        rewrite (lookup_ge_None_2 _ (length (reverse rest) + 1))
          by (rewrite length_app; cbn; lia).
        rewrite lookup_app_r, Nat.sub_diag by lia. cbn [lookup list_lookup default].
        unfold JSArray.set at 2. rewrite decide_False by (rewrite length_app; cbn; lia).
        rewrite length_app. cbn [length].
        replace (length (reverse rest) + 1 - (length (reverse rest) + 1))%nat with 0%nat by lia.
        cbn [replicate Datatypes.app].
        rewrite set_in_range by (rewrite !length_app; cbn; lia).
        rewrite <- app_assoc. rewrite insert_app_r_alt, Nat.sub_diag by lia.
        reflexivity.
    + destruct s as [a w t]. cbn [state] in *. unfold moveClip. unfold_M.
      destruct (Z.ltb_spec (Z.of_nat index - 1) 0); [reflexivity|].
      destruct (Z.leb_spec (Z.of_nat (length (clips a))) (Z.of_nat index - 1)); [|lia].
      reflexivity.
  - destruct s as [a w t]. cbn [state] in *. unfold moveClip. unfold_M.
    destruct (Z.ltb_spec (Z.of_nat index + 1) 0); [reflexivity|].
    destruct (Z.leb_spec (Z.of_nat (length (clips a))) (Z.of_nat index + 1)); [|lia].
    reflexivity.
Qed.

Lemma moveClip_outside_witness :
  let a := Some (demo_clip "a" "/music/a.mp3") in
  let b := Some (demo_clip "b" "/music/b.wav") in
  (length (clips (state (demo_session [a; b]))) <= 2)%nat
  /\ clips (state (after (moveClip 2 up) (demo_session [a; b]))) = [a; None; b].
Proof.
  intros a b. split; [cbn; lia|].
  apply (moveClip_outside (demo_session [a; b]) 2 up). cbn. lia.
Defined.

(** *** Dragging *)

Lemma reorder_in_range (l : list slot) dragged index x :
  l !! dragged = Some x ->
  reorder l dragged index
  = take index (delete dragged l) ++ x :: drop index (delete dragged l).
Proof. intros Hx. unfold reorder. rewrite (splice_out_in_range _ _ _ Hx). reflexivity. Qed.

Lemma handleDragOverItem_run {World} (s : St World) (dragged index : nat) :
  draggedIndex (state s) = Some dragged ->
  dragged <> index ->
  after (handleDragOverItem index) s
  = mkSt (upd_draggedIndex (Some index)
            (upd_clips (reorder (clips (state s)) dragged index) (state s)))
         (world s) (trace s).
Proof.
  destruct s as [a w t]. cbn [state world trace]. intros Hdragged Hne.
  unfold handleDragOverItem. unfold_M. rewrite Hdragged.
  rewrite decide_False by exact Hne. reflexivity.
Qed.

Lemma reorder_lands (l : list slot) dragged index :
  (dragged < length l)%nat -> (index < length l)%nat ->
  reorder l dragged index !! index = l !! dragged
  /\ delete index (reorder l dragged index) = delete dragged l
  /\ length (reorder l dragged index) = length l.
Proof.
  intros Hd Hi. destruct (lookup_lt_is_Some_2 l dragged Hd) as [x Hx].
  rewrite (reorder_in_range _ _ _ _ Hx), Hx.
  assert (length (delete dragged l) = (length l - 1)%nat) as Hlen
    by (apply length_delete; eauto).
  assert (length (take index (delete dragged l)) = index) as Htake
    by (apply length_take_le; lia).
  split; [apply list_lookup_middle; congruence|]. split.
  - rewrite <- Htake at 1. rewrite delete_middle. apply take_drop.
  - rewrite length_app. cbn [length]. rewrite Htake, length_drop. lia.
Qed.

(** An array is known by one of its elements and the array without it. *)
Lemma list_eq_delete {A} (l1 l2 : list A) k x :
  l1 !! k = Some x -> l2 !! k = Some x -> delete k l1 = delete k l2 -> l1 = l2.
Proof.
  intros H1 H2 Hdel.
  rewrite <- (take_drop_middle _ _ _ H1), <- (take_drop_middle _ _ _ H2).
  rewrite !delete_take_drop in Hdel.
  apply app_inj_1 in Hdel as [-> ->]; [reflexivity|].
  rewrite !length_take_le; [reflexivity|..].
  - apply lookup_lt_Some in H2. lia.
  - apply lookup_lt_Some in H1. lia.
Qed.

(** X13. A drag over another position of the list puts the dragged clip
    there and nowhere else: the position hovered holds the clip that was
    at the dragged index, the other clips keep their order, the length is
    kept, and the dragged index follows the clip. *)
Theorem handleDragOverItem_lands {World} (s : St World) (dragged index : nat) :
  draggedIndex (state s) = Some dragged ->
  (dragged < length (clips (state s)))%nat ->
  (index < length (clips (state s)))%nat ->
  dragged <> index ->
  let s' := after (handleDragOverItem index) s in
  clips (state s') !! index = clips (state s) !! dragged
  /\ delete index (clips (state s')) = delete dragged (clips (state s))
  /\ length (clips (state s')) = length (clips (state s))
  /\ draggedIndex (state s') = Some index.
Proof.
  intros Hdragged Hd Hi Hne s'. subst s'.
  rewrite (handleDragOverItem_run s dragged index Hdragged Hne).
  cbn [state clips draggedIndex upd_clips upd_draggedIndex].
  destruct (reorder_lands _ _ _ Hd Hi) as (H1 & H2 & H3). auto.
Qed.

Lemma handleDragOverItem_lands_witness :
  let a := Some (demo_clip "a" "/music/a.mp3") in
  let b := Some (demo_clip "b" "/music/b.wav") in
  let c := Some (demo_clip "c" "/music/c.ogg") in
  let s' := after (handleDragOverItem 0) demo_dragging in
  clips (state s') !! 0%nat = Some c
  /\ delete 0%nat (clips (state s')) = [a; b]
  /\ length (clips (state s')) = 3%nat
  /\ draggedIndex (state s') = Some 0%nat.
Proof.
  intros a b c.
  apply (handleDragOverItem_lands demo_dragging 2 0);
    [reflexivity | cbn; lia | cbn; lia | discriminate].
Defined.

(** X14. Dragging a clip to another position and back to where it started
    gives back the clip list and the dragged index. *)
Theorem handleDragOverItem_back {World} (s : St World) (dragged index : nat) :
  draggedIndex (state s) = Some dragged ->
  (dragged < length (clips (state s)))%nat ->
  (index < length (clips (state s)))%nat ->
  let s' := after (handleDragOverItem dragged) (after (handleDragOverItem index) s) in
  clips (state s') = clips (state s) /\ draggedIndex (state s') = Some dragged.
Proof.
  intros Hdragged Hd Hi s'. subst s'.
  destruct (decide (dragged = index)) as [<- | Hne].
  - destruct s as [a w t]. cbn [state] in *. unfold handleDragOverItem. unfold_M.
    rewrite Hdragged, decide_True by reflexivity. unfold_M.
    rewrite Hdragged, decide_True by reflexivity. auto.
  - destruct (handleDragOverItem_lands s dragged index Hdragged Hd Hi Hne)
      as (Hat & Hrest & Hlen & Hnow).
    destruct (handleDragOverItem_lands (after (handleDragOverItem index) s)
                index dragged Hnow) as (Hat' & Hrest' & _ & Hnow');
      [rewrite Hlen; exact Hi | rewrite Hlen; exact Hd | congruence|].
    split; [|exact Hnow'].
    destruct (lookup_lt_is_Some_2 _ _ Hd) as [x Hx].
    apply (list_eq_delete _ _ dragged x); [|exact Hx|].
    + rewrite Hat', Hat. exact Hx.
    + rewrite Hrest', Hrest. reflexivity.
Qed.

Lemma handleDragOverItem_back_witness :
  let s' := after (handleDragOverItem 2) (after (handleDragOverItem 0) demo_dragging) in
  draggedIndex (state demo_dragging) = Some 2%nat
  /\ clips (state s') = clips (state demo_dragging)
  /\ draggedIndex (state s') = Some 2%nat.
Proof.
  intros s'. split; [reflexivity|].
  apply (handleDragOverItem_back demo_dragging 2 0); [reflexivity | cbn; lia | cbn; lia].
Defined.

(** *** Removing *)

Lemma all_defined_clips_of (l : list slot) : all_defined l -> Some <$> clips_of l = l.
Proof.
  induction 1 as [|x l [c ->] _ IH]; [reflexivity|].
  cbn. unfold clips_of in IH. rewrite IH. reflexivity.
Qed.

Lemma not_all_defined (l : list slot) : None ∈ l <-> ~ all_defined l.
Proof.
  unfold all_defined. split.
  - intros Hin Hall. rewrite Forall_forall in Hall.
    destruct (Hall _ Hin) as [c Hc]. discriminate Hc.
  - intros Hnot. induction l as [|[c|] l IH]; [destruct Hnot; constructor| |left].
    right. apply IH. intros Hall. apply Hnot. constructor; [eexists; reflexivity | exact Hall].
Qed.

Lemma filter_id_ne_defined id (l : list slot) :
  all_defined l ->
  filter_id_ne id l
  = Normal (Some <$> filter (fun c => AudioClip.id c <> id) (clips_of l)).
Proof.
  induction 1 as [|x l [c ->] _ IH]; [reflexivity|].
  cbn [filter_id_ne]. rewrite IH.
  change (clips_of (Some c :: l)) with (c :: clips_of l).
  case_decide as Hid.
  - rewrite filter_cons_True by exact Hid. reflexivity.
  - rewrite filter_cons_False by (intros Hne; exact (Hne Hid)). reflexivity.
Qed.


Lemma removeClip_clips {World} (s : St World) (id : jsstring) :
  all_defined (clips (state s)) ->
  clips (state (after (removeClip id) s))
  = Some <$> filter (fun c => AudioClip.id c <> id) (clips_of (clips (state s))).
Proof.
  destruct s as [a w t]. cbn [state]. intros Hall.
  unfold removeClip. unfold_M. rewrite (filter_id_ne_defined _ _ Hall). reflexivity.
Qed.



(** X16. Removals compose as filters: on a list without [undefined],
    removing an id twice is removing it once, removing an id no clip has
    changes nothing, and two removals give the same list in either
    order. *)
Theorem removeClip_composes {World} (s : St World) (id1 id2 : jsstring) :
  all_defined (clips (state s)) ->
  let remove id s := after (removeClip id) s in
  clips (state (remove id1 (remove id1 s))) = clips (state (remove id1 s))
  /\ clips (state (remove id2 (remove id1 s))) = clips (state (remove id1 (remove id2 s)))
  /\ (Forall (fun c => AudioClip.id c <> id1) (clips_of (clips (state s))) ->
      clips (state (remove id1 s)) = clips (state s)).
Proof.
  intros Hall remove.
  assert (forall id (s0 : St World), all_defined (clips (state s0)) ->
            clips (state (remove id s0))
            = Some <$> filter (fun c => AudioClip.id c <> id) (clips_of (clips (state s0))))
    as Hrun.
  { intros id s0 H0. exact (removeClip_clips s0 id H0). }
  assert (forall (l : list AudioClip.t), all_defined (Some <$> l)) as Hsome.
  { intros l. unfold all_defined. apply Forall_fmap, Forall_true. intros c. eexists. reflexivity. }
  assert (forall (l : list AudioClip.t), clips_of (Some <$> l) = l) as Hof.
  { intros l. induction l as [|c l IH]; [reflexivity|].
    cbn. unfold clips_of in IH. rewrite IH. reflexivity. }
  rewrite !Hrun; rewrite ?Hrun, ?Hof; auto.
  split; [|split].
  - f_equal. apply list_filter_filter_l. auto.
  - f_equal. rewrite !list_filter_filter. apply list_filter_iff. tauto.
  - intros Hnone. rewrite <- (all_defined_clips_of _ Hall) at 2. f_equal.
    induction Hnone as [|c l Hc _ IH]; [reflexivity|].
    rewrite filter_cons_True by exact Hc. rewrite IH. reflexivity.
Qed.

Lemma removeClip_composes_witness :
  let a := demo_clip "a" "/music/a.mp3" in
  let b := demo_clip "b" "/music/b.wav" in
  let s := demo_session [Some a; Some b; Some a] in
  let remove id s := after (removeClip id) s in
  all_defined (clips (state s))
  /\ clips (state (remove (lit "a") (remove (lit "a") s))) = clips (state (remove (lit "a") s))
  /\ clips (state (remove (lit "b") (remove (lit "a") s)))
     = clips (state (remove (lit "a") (remove (lit "b") s))).
Proof.
  intros a b s remove.
  assert (all_defined (clips (state s))) as Hall
    by (repeat constructor; eexists; reflexivity).
  split; [exact Hall|].
  destruct (removeClip_composes s (lit "a") (lit "b") Hall) as (Htwice & Hcomm & _).
  split; [exact Htwice | exact Hcomm].
Defined.

(** ** More on the session *)

Section MoreSessionFacts.

Context {World : Type} (host : Host World).

Lemma appended_shape a a' added :
  appended a a' added -> exists t, a' = upd_clips (clips a ++ added) (upd_toast t a).
Proof. intros (a1 & -> & ->). eexists. reflexivity. Qed.

Lemma clip_of_probe_defined added prs :
  Forall2 clip_of_probe added prs -> all_defined added.
Proof.
  induction 1 as [|sl pr added prs [id ->] _ IH]; constructor; [eexists; reflexivity | exact IH].
Qed.

(** What one [addAudioFiles] call leaves of the state: clips appended, all
    of them defined, and the toast. *)
Lemma addAudioFiles_state paths (s : St World) :
  exists added t evs,
    state (snd (addAudioFiles host paths s))
    = upd_clips (clips (state s) ++ added) (upd_toast t (state s))
    /\ all_defined added
    /\ trace (snd (addAudioFiles host paths s)) = trace s ++ evs
    /\ add_log (if started host s then paths else []) evs added.
Proof.
  destruct (addAudioFiles_log host paths s)
    as (evs & added & a' & w' & c & Hrun & Happ & Hlog & _).
  rewrite Hrun. cbn [snd state trace].
  destruct (appended_shape _ _ _ Happ) as [t ->].
  exists added, t, evs. repeat split; auto.
  exact (clip_of_probe_defined _ _ (add_log_added _ _ _ Hlog)).
Qed.

Lemma add_log_prepend paths pre evs added :
  Forall quiet pre -> add_log paths evs added -> add_log paths (pre ++ evs) added.
Proof.
  intros Hpre (pre' & log & post & -> & Hquiet & Hpost & Hlog).
  exists (pre ++ pre'), log, post. rewrite app_assoc.
  repeat split; auto. apply Forall_app_2; assumption.
Qed.

Lemma handed_more ev evs evs' paths :
  handed ev evs paths -> handed ev (evs ++ evs') paths.
Proof.
  destruct ev; cbn [handed]; try tauto.
  intros (selected & Hin & ->). exists selected. rewrite elem_of_app. auto.
Qed.

(** The three handlers that add files call [addAudioFiles] at most once,
    on the state they found, and do nothing else to the clips. *)
Lemma adder_runs (ev : UiEvent) (s : St World) :
  adds_clips ev = true ->
  (exists paths s1 dragging evs,
      after (handler host ev) s = after (addAudioFiles host paths) s1
      /\ state s1 = upd_isDragging dragging (state s)
      /\ trace s1 = trace s ++ evs
      /\ Forall quiet evs
      /\ handed ev evs paths)
  \/ (exists t dragging evs,
        state (after (handler host ev) s) = upd_toast t (upd_isDragging dragging (state s))
        /\ trace (after (handler host ev) s) = trace s ++ evs
        /\ Forall quiet evs).
Proof.
  destruct s as [a w t]. destruct a.
  destruct ev; try discriminate; intros _; cbn [handler];
    unfold handleBrowse, handleFileInput, handleDrop; run; tidy_trace.
  all: try match goal with
       | H : addAudioFiles _ ?paths ?st = _ |- _ =>
           left; exists paths, st; eexists _, _;
           split; [rewrite H; reflexivity|]; tidy_trace; split; [reflexivity|]
       end.
  all: try (right; eexists _, _, _; split; [reflexivity|]).
  all: split; [first [reflexivity | symmetry; apply app_nil_r]|].
  all: first
    [ split;
      [ repeat constructor
      | cbn [handed];
        first [reflexivity | eexists; split; [repeat constructor | reflexivity]] ]
    | repeat constructor ].
Qed.

(** What an event that adds files leaves: clips at the end of the list,
    a toast and the dragging flag. *)
Lemma adder_state (ev : UiEvent) (s : St World) :
  adds_clips ev = true ->
  exists paths dragging t evs added,
    (paths = [] \/ handed ev evs paths)
    /\ state (after (handler host ev) s)
       = upd_clips (clips (state s) ++ added)
           (upd_toast t (upd_isDragging dragging (state s)))
    /\ all_defined added
    /\ trace (after (handler host ev) s) = trace s ++ evs
    /\ add_log paths evs added.
Proof.
  intros Hadd.
  destruct (adder_runs ev s Hadd)
    as [(paths & s1 & dragging & evs0 & Hrun & Hstate1 & Htrace1 & Hquiet & Hhanded)
       | (t & dragging & evs & Hstate & Htrace & Hquiet)].
  - destruct (addAudioFiles_state paths s1)
      as (added & t & evs1 & Hstate & Hdefined & Htrace & Hlog).
    rewrite Hrun. unfold after.
    exists (if started host s1 then paths else []), dragging, t, (evs0 ++ evs1), added.
    split; [destruct (started host s1); [right; apply handed_more; exact Hhanded | left; reflexivity]|].
    split; [rewrite Hstate, Hstate1; reflexivity|].
    split; [exact Hdefined|].
    split; [rewrite Htrace, Htrace1, app_assoc; reflexivity|].
    apply add_log_prepend; assumption.
  - exists [], dragging, t, evs, [].
    split; [left; reflexivity|].
    split; [rewrite Hstate, app_nil_r; destruct (state s); reflexivity|].
    split; [constructor|].
    split; [exact Htrace|].
    apply add_log_quiet. exact Hquiet.
Qed.

Lemma adder_defined (ev : UiEvent) (s : St World) :
  adds_clips ev = true ->
  all_defined (clips (state s)) ->
  all_defined (clips (state (after (handler host ev) s))).
Proof.
  intros Hadd Hall.
  destruct (adder_state ev s Hadd)
    as (paths & dragging & t & evs & added & _ & Hstate & Hdefined & _).
  rewrite Hstate. cbn [clips upd_clips]. apply Forall_app_2; assumption.
Qed.

End MoreSessionFacts.

Lemma exchange_defined (l : list slot) i j :
  (i < length l)%nat -> (j < length l)%nat -> i <> j ->
  all_defined l -> all_defined (exchange l i j).
Proof.
  intros Hi Hj Hne Hall.
  destruct (exchange_swapped l i j Hi Hj Hne) as (_ & _ & _ & _ & Hperm).
  unfold all_defined. rewrite Hperm. exact Hall.
Qed.

Lemma reorder_defined (l : list slot) dragged index :
  (dragged < length l)%nat -> all_defined l -> all_defined (reorder l dragged index).
Proof.
  intros Hd Hall. destruct (lookup_lt_is_Some_2 l dragged Hd) as [x Hx].
  rewrite (reorder_in_range _ _ _ _ Hx). unfold all_defined in *.
  apply Forall_app_2; [apply Forall_take, Forall_delete, Hall|].
  apply Forall_cons_2; [|apply Forall_drop, Forall_delete, Hall].
  rewrite Forall_forall in Hall. apply Hall. eapply list_elem_of_lookup_2. exact Hx.
Qed.

(** X17. Browsing, the file input and a drop all add clips the same way:
    at most one probe pass over the paths handed over (those of the files
    dropped or chosen that have a path, in their order, or the selection
    of the audio dialog), probing the supported ones in order and
    appending the clips of the valid probes; beside the clip list only the
    toast and the dragging flag may change. *)
Theorem add_events_probe_and_append {World} (host : Host World) (ev : UiEvent)
    (s : St World) :
  adds_clips ev = true ->
  let s' := after (handler host ev) s in
  exists paths dragging t evs added,
    (paths = [] \/ handed ev evs paths)
    /\ trace s' = trace s ++ evs
    /\ (probes evs).*1 = filter supported_path paths
    /\ Forall2 clip_of_probe added (valid_probes evs)
    /\ state s'
       = upd_clips (clips (state s) ++ added)
           (upd_toast t (upd_isDragging dragging (state s))).
Proof.
  intros Hadd s'.
  destruct (adder_state host ev s Hadd)
    as (paths & dragging & t & evs & added & Hpaths & Hstate & _ & Htrace & Hlog).
  exists paths, dragging, t, evs, added.
  split; [exact Hpaths|]. split; [exact Htrace|].
  split; [exact (add_log_probes _ _ _ Hlog)|].
  split; [exact (add_log_added _ _ _ Hlog)|].
  exact Hstate.
Qed.

Lemma add_events_probe_and_append_witness :
  let s := demo_session [Some (demo_clip "a" "/music/a.mp3")] in
  let ev := Drop [Some (lit "/music/b.wav"); None; Some (lit "/music/notes.txt")] in
  adds_clips ev = true
  /\ exists paths dragging t evs added,
       (paths = [] \/ handed ev evs paths)
       /\ trace (after (handler demo_host ev) s) = trace s ++ evs
       /\ (probes evs).*1 = filter supported_path paths
       /\ Forall2 clip_of_probe added (valid_probes evs)
       /\ state (after (handler demo_host ev) s)
          = upd_clips (clips (state s) ++ added)
              (upd_toast t (upd_isDragging dragging (state s))).
Proof.
  intros s ev. split; [reflexivity|].
  apply (add_events_probe_and_append demo_host ev s). reflexivity.
Defined.

(** X18. No event puts [undefined] into a clip list that has none, as
    long as the index it uses lies in the list: the index of a move, and
    the dragged index the state holds at a drag-over. *)
Theorem session_keeps_clips_defined {World} (host : Host World) (ev : UiEvent)
    (s : St World) :
  all_defined (clips (state s)) ->
  aims_inside ev (state s) ->
  all_defined (clips (state (after (handler host ev) s))).
Proof.
  intros Hall Haim.
  destruct (adds_clips ev) eqn:Hadd; [exact (adder_defined host ev s Hadd Hall)|].
  destruct (handler_summary host ev s) as (evs & _ & _ & _ & Hclips).
  destruct ev; try discriminate Hadd; cbn [clips_change aims_inside] in Hclips, Haim.
  all: try (rewrite Hclips; exact Hall).
  - (* ClickMove *)
    destruct Hclips as [-> | (j & Hj & Hnext & ->)]; [exact Hall|].
    apply exchange_defined; [exact Haim | exact Hj | lia | exact Hall].
  - (* ClickRemove *)
    cbn [handler]. rewrite (removeClip_clips s _ Hall).
    unfold all_defined. apply Forall_fmap, Forall_forall. intros c _. eexists; reflexivity.
  - (* ItemDragOver *)
    clear Hclips. cbn [handler].
    destruct (draggedIndex (state s)) as [dragged|] eqn:Hdragged.
    + destruct (decide (dragged = index)) as [Heq | Hne].
      * destruct s as [a w t]. cbn [state] in *.
        unfold handleDragOverItem. unfold_M. rewrite Hdragged.
        rewrite decide_True by exact Heq. exact Hall.
      * rewrite (handleDragOverItem_run s dragged index Hdragged Hne).
        cbn [state clips upd_clips upd_draggedIndex].
        apply reorder_defined; assumption.
    + destruct s as [a w t]. cbn [state] in *.
      unfold handleDragOverItem. unfold_M. rewrite Hdragged. exact Hall.
Qed.

Lemma session_keeps_clips_defined_witness :
  all_defined (clips (state demo_dragging))
  /\ aims_inside (ItemDragOver 0) (state demo_dragging)
  /\ all_defined (clips (state (after (handler demo_host (ItemDragOver 0)) demo_dragging))).
Proof.
  assert (all_defined (clips (state demo_dragging))) as Hall
    by (repeat constructor; eexists; reflexivity).
  assert (aims_inside (ItemDragOver 0) (state demo_dragging)) as Haim by (cbn; lia).
  split; [exact Hall|]. split; [exact Haim|].
  exact (session_keeps_clips_defined demo_host (ItemDragOver 0) demo_dragging Hall Haim).
Defined.

(** ** Inside and outside Tauri *)

Lemma addAudioFiles_outside {World} (host : Host World) paths (s : St World) :
  isInTauri (state s) = false ->
  exists t,
    addAudioFiles host paths s
    = (Normal tt, mkSt (upd_toast (Some t) (state s)) (world s) (trace s ++ [ShowToast t])).
Proof.
  destruct s as [a w t]. cbn [state world trace]. intros Htauri.
  unfold addAudioFiles. unfold_M. rewrite Htauri. cbn [negb].
  eexists. reflexivity.
Qed.

(** X19. Outside Tauri no event after the mount reaches the host: the
    world is as before, and the only events are toasts. *)
Theorem outside_tauri_no_host_call {World} (host : Host World) (ev : UiEvent)
    (s : St World) :
  isInTauri (state s) = false ->
  ev <> Mount ->
  let s' := after (handler host ev) s in
  world s' = world s
  /\ isInTauri (state s') = false
  /\ exists evs, trace s' = trace s ++ evs /\ Forall is_toast evs.
Proof.
  destruct s as [a w t]. destruct a. cbn [state isInTauri]. intros -> Hev.
  destruct ev; try congruence; cbn [handler];
    unfold handleBrowse, handleFileInput, handleSelectImage, handleRemoveImage,
      handleDragOver, handleDragLeave, handleDrop, moveClip, removeClip,
      handleDragStart, handleDragEnd, handleDragOverItem, handleExport;
    run; tidy_trace.
  all: try match goal with
       | H : negb _ = false |- _ => discriminate H
       end.
  all: try match goal with
       | H : addAudioFiles _ ?paths ?st = _ |- _ =>
           destruct (addAudioFiles_outside host paths st eq_refl) as [toast Hrun];
           rewrite Hrun in H; injection H as _ <- <- <-;
           cbn [state world trace]; tidy_trace
       end.
  all: split; [reflexivity|]; split; [reflexivity|].
  all: first [ eexists; split; [reflexivity|]; repeat constructor
             | exists []; split; [symmetry; apply app_nil_r | constructor] ].
Qed.

Lemma outside_tauri_no_host_call_witness :
  let s := initial 0%nat in
  isInTauri (state s) = false
  /\ ClickExport <> Mount
  /\ world (after (handler demo_host ClickExport) s) = world s
  /\ isInTauri (state (after (handler demo_host ClickExport) s)) = false
  /\ exists evs,
       trace (after (handler demo_host ClickExport) s) = trace s ++ evs
       /\ Forall is_toast evs.
Proof.
  intros s. split; [reflexivity|]. split; [discriminate|].
  apply (outside_tauri_no_host_call demo_host ClickExport s); [reflexivity | discriminate].
Defined.

Section ReadyFacts.

Context {World : Type} (host : Host World).

(** Past the mount, no event writes [isInTauri] or [ffmpegStatus]. *)
Lemma handler_cells (ev : UiEvent) (s : St World) :
  ev <> Mount ->
  isInTauri (state (after (handler host ev) s)) = isInTauri (state s)
  /\ ffmpegStatus (state (after (handler host ev) s)) = ffmpegStatus (state s).
Proof.
  intros Hev. destruct (adds_clips ev) eqn:Hadd.
  - destruct (adder_state host ev s Hadd)
      as (paths & dragging & t & evs & added & _ & Hstate & _).
    rewrite Hstate. split; reflexivity.
  - destruct s as [a w t]. destruct a.
    destruct ev; try congruence; try discriminate Hadd; cbn [handler];
      unfold handleSelectImage, handleRemoveImage,
        handleDragOver, handleDragLeave, moveClip, removeClip,
        handleDragStart, handleDragEnd, handleDragOverItem, handleExport;
      run; split; reflexivity.
Qed.

Lemma tauri_ready_step (ev : UiEvent) (s : St World) :
  tauri_ready (state s) -> tauri_ready (state (after (handler host ev) s)).
Proof.
  intros Hready.
  assert (ev = Mount \/ ev <> Mount) as [-> | Hev]
    by (destruct ev; first [left; reflexivity | right; discriminate]).
  - destruct s as [a w t]. cbn [handler]. unfold onMount. run.
    all: unfold tauri_ready; cbn; first [reflexivity | discriminate].
  - destruct (handler_cells ev s Hev) as [Htauri Hstatus].
    unfold tauri_ready. rewrite Htauri, Hstatus. exact Hready.
Qed.

Lemma reachable_tauri_ready (s : St World) : reachable host s -> tauri_ready (state s).
Proof.
  induction 1 as [w | s ev s' _ IH Hstep].
  - exact I.
  - destruct Hstep. apply tauri_ready_step. exact IH.
Qed.

End ReadyFacts.

(** X20. In a session reached from the initial state, the export button
    is enabled only where [handleExport] goes past both of its guards: a
    click then starts with the Tauri import, not with a toast. *)
Theorem export_enabled_reaches_host {World} (host : Host World) (s : St World) :
  reachable host s ->
  exportDisabled (state s) = false ->
  exists r evs,
    trace (after (handleExport host) s) = trace s ++ ImportTauriApis r :: evs.
Proof.
  intros Hreach Henabled.
  pose proof (reachable_tauri_ready host s Hreach) as Hready.
  unfold exportDisabled in Henabled. unfold tauri_ready in Hready.
  apply orb_false_elim in Henabled as [Henabled Hstatus].
  apply orb_false_elim in Henabled as [Hlength _].
  apply negb_false_iff in Hstatus.
  destruct (ffmpegStatus (state s)) as [status|]; [|discriminate Hstatus].
  specialize (Hready Hstatus).
  destruct s as [a w t]. cbn [state] in *.
  unfold handleExport. unfold_M. rewrite Hready, Hlength. cbn [negb].
  run; tidy_trace; eexists _, _; reflexivity.
Qed.

Lemma export_enabled_reaches_host_witness :
  reachable demo_host demo_run
  /\ exportDisabled (state demo_run) = false
  /\ exists r evs,
       trace (after (handleExport demo_host) demo_run)
       = trace demo_run ++ ImportTauriApis r :: evs.
Proof.
  split; [exact demo_run_reachable|]. split; [reflexivity|].
  apply (export_enabled_reaches_host demo_host demo_run); [exact demo_run_reachable | reflexivity].
Defined.

(** ** The toast of [addAudioFiles] *)

Lemma app_self_nil {A} (l x : list A) : l = l ++ x -> x = [].
Proof.
  intros H. apply (app_inv_head l). rewrite app_nil_r. symmetry. exact H.
Qed.

Lemma addAudioFiles_toast {World} (host : Host World) paths (s : St World) :
  exists added s',
    after (addAudioFiles host paths) s = s'
    /\ clips (state s') = clips (state s) ++ added
    /\ (added <> [] ->
        toast (state s') = Some (added_toast (length added))
        /\ last (trace s') = Some (ShowToast (added_toast (length added)))).
Proof.
  destruct s as [a w t]. cbn [state].
  destruct (isInTauri a) eqn:Htauri.
  - destruct (import_tauri_apis host w) as [[u|e] w1] eqn:Himport.
    + destruct (addAudioFiles_loop_log host paths []
                  (mkSt a w1 (t ++ [ImportTauriApis (Resolved u)])))
        as (evs & added & a1 & w2 & Hrun & Htoast & Hlog).
      cbn [Datatypes.app trace state] in *.
      destruct (0 <? length added)%nat eqn:Hlen.
      * exists added. eexists. split.
        { unfold addAudioFiles. unfold_M. rewrite Htauri. cbn [negb]. unfold_M.
          rewrite Himport. unfold_M. rewrite Hrun. unfold_M. rewrite Hlen.
          reflexivity. }
        cbn [state trace clips upd_clips upd_toast toast].
        rewrite (only_toast_clips _ _ Htoast). split; [reflexivity|].
        intros _. split; [reflexivity|]. rewrite last_snoc. reflexivity.
      * exists []. eexists. split.
        { unfold addAudioFiles. unfold_M. rewrite Htauri. cbn [negb]. unfold_M.
          rewrite Himport. unfold_M. rewrite Hrun. unfold_M. rewrite Hlen.
          reflexivity. }
        cbn [state]. rewrite (only_toast_clips _ _ Htoast), app_nil_r.
        split; [reflexivity | congruence].
    + exists []. eexists. split.
      { unfold addAudioFiles. unfold_M. rewrite Htauri. cbn [negb]. unfold_M.
        rewrite Himport. unfold_M. reflexivity. }
      cbn [state clips upd_toast]. rewrite app_nil_r. split; [reflexivity | congruence].
  - exists []. eexists. split.
    { unfold addAudioFiles. unfold_M. rewrite Htauri. cbn [negb]. unfold_M. reflexivity. }
    cbn [state clips upd_toast]. rewrite app_nil_r. split; [reflexivity | congruence].
Qed.

(** X21. When [addAudioFiles] has added clips, it ends with a success
    toast that counts them: "Added n clip", with an "s" when there is more
    than one; the toast is the last event and the one the state shows. *)
Theorem addAudioFiles_announces_count {World} (host : Host World)
    (paths : list jsstring) (s : St World) (added : list slot) :
  let s' := after (addAudioFiles host paths) s in
  clips (state s') = clips (state s) ++ added ->
  added <> [] ->
  toast (state s') = Some (added_toast (length added))
  /\ last (trace s') = Some (ShowToast (added_toast (length added))).
Proof.
  intros s' Hclips Hne.
  destruct (addAudioFiles_toast host paths s) as (added' & s2 & Hrun & Hclips' & Htoast).
  subst s'. rewrite Hrun in *. rewrite Hclips' in Hclips.
  apply app_inv_head in Hclips. subst added'. exact (Htoast Hne).
Qed.

Lemma addAudioFiles_announces_count_witness :
  let s := demo_session [Some (demo_clip "a" "/music/a.mp3")] in
  let s' := after (addAudioFiles demo_host [lit "/music/b.wav"; lit "/music/c.ogg"]) s in
  exists added,
    clips (state s') = clips (state s) ++ added
    /\ added <> []
    /\ toast (state s') = Some (Toast.mk Toast.success (lit "Added 2 clips")).
Proof.
  intros s s'. eexists.
  assert (clips (state s') = clips (state s) ++ drop 1 (clips (state s'))) as Hclips
    by reflexivity.
  assert (drop 1 (clips (state s')) <> []) as Hne by (vm_compute; discriminate).
  split; [exact Hclips|]. split; [exact Hne|].
  exact (proj1 (addAudioFiles_announces_count demo_host _ s _ Hclips Hne)).
Defined.

(** ** Selecting an image *)

(** X22. [handleSelectImage] probes at most the one file the image dialog
    was answered with, and only when the extension sliced from its name is
    a supported image extension; whenever no probe is answered valid the
    image held stays as it was; and beside the image only the toast may
    change. *)
Theorem handleSelectImage_gate {World} (host : Host World) (s : St World) :
  let s' := after (handleSelectImage host) s in
  exists evs image t,
    trace s' = trace s ++ evs
    /\ state s' = upd_toast t (upd_backgroundImage image (state s))
    /\ (forall path r,
          InvokeGetImageInfo path r ∈ evs ->
          JS.includes SUPPORTED_IMAGE_EXTENSIONS (sliced_extension (filename_of path)) = true
          /\ DialogOpen false (lit "Image Files") IMAGE_DIALOG_EXTENSIONS
               (Resolved (SelectedOne path)) ∈ evs)
    /\ ((forall path info,
           InvokeGetImageInfo path (Resolved info) ∈ evs -> ImageInfo.valid info = false) ->
        image = backgroundImage (state s)).
Proof.
  destruct s as [a w t]. destruct a. cbn zeta. unfold handleSelectImage.
  unfold sliced_extension. run; tidy_trace.
  all: eexists _, _, _; split; [first [reflexivity | symmetry; apply app_nil_r]|].
  all: split; [reflexivity|].
  all: split;
    [ intros ? ? Hin;
      repeat match goal with
        | H : _ ∈ _ :: _ |- _ => apply elem_of_cons in H as [H | H]
        | H : _ ∈ [] |- _ => inversion H
        end; try discriminate;
      match goal with
      | H : InvokeGetImageInfo _ _ = InvokeGetImageInfo _ _ |- _ => injection H as -> _
      end;
      first
        [ split;
          [ match goal with
            | H : negb ?b = false |- ?b = true => apply negb_false_iff; exact H
            end
          | repeat constructor ] ]
    | intros Hinvalid; try reflexivity ].
  all: match goal with
       | H : ImageInfo.valid ?info = true |- _ =>
           rewrite (Hinvalid _ info) in H by repeat constructor; discriminate H
       end.
Qed.

(** ** The totals of a render *)

Lemma reduce_sum_app field name sum (l l' : list slot) :
  reduce_sum field name sum (l ++ l')
  = match reduce_sum field name sum l with
    | Normal x => reduce_sum field name x l'
    | Throw e => Throw e
    end.
Proof.
  revert sum. induction l as [|[c|] l IH]; intros sum; cbn [reduce_sum Datatypes.app].
  - reflexivity.
  - apply IH.
  - reflexivity.
Qed.

Lemma reduce_sum_defined field name sum (l : list slot) :
  all_defined l -> exists x, reduce_sum field name sum l = Normal x.
Proof.
  intros Hall. revert sum. induction Hall as [|x l [c ->] _ IH]; intros sum.
  - exists sum. reflexivity.
  - apply IH.
Qed.

Lemma reduce_sum_undefined field name sum (l : list slot) :
  None ∈ l -> throws (reduce_sum field name sum l).
Proof.
  revert sum. induction l as [|[c|] l IH]; intros sum Hin.
  - inversion Hin.
  - apply elem_of_cons in Hin as [Heq | Hin]; [discriminate Heq|]. apply IH. exact Hin.
  - exact I.
Qed.

Lemma reduce_sum_throws field name sum (l : list slot) :
  throws (reduce_sum field name sum l) <-> None ∈ l.
Proof.
  split; [|apply reduce_sum_undefined].
  intros Hthrows. apply not_all_defined. intros Hall.
  destruct (reduce_sum_defined field name sum l Hall) as [x Hx].
  rewrite Hx in Hthrows. exact Hthrows.
Qed.

(** X24. The two totals of a render are computed exactly when the clip
    list holds no [undefined]: with one in the list both reductions throw.
    When they are computed, the totals of a list with one more clip at the
    end are the totals so far plus that clip's duration and size, added
    last. *)
Theorem render_totals (l : list slot) :
  (throws (totalDuration l) <-> None ∈ l)
  /\ (throws (totalSize l) <-> None ∈ l)
  /\ forall d sz c,
       totalDuration l = Normal d ->
       totalSize l = Normal sz ->
       totalDuration (l ++ [Some c]) = Normal (d + AudioClip.duration c)%float
       /\ totalSize (l ++ [Some c]) = Normal (sz + AudioClip.size c)%float.
Proof.
  unfold totalDuration, totalSize.
  split; [apply reduce_sum_throws|]. split; [apply reduce_sum_throws|].
  intros d sz c Hd Hsz. rewrite !reduce_sum_app, Hd, Hsz. split; reflexivity.
Qed.

(** X25. A drag-over with a dragged index past the end of the list breaks
    the next render: with [undefined] in the list, both totals throw. *)
Theorem stale_drag_breaks_render {World} (s : St World) (dragged index : nat) :
  draggedIndex (state s) = Some dragged ->
  (length (clips (state s)) <= dragged)%nat ->
  dragged <> index ->
  let s' := after (handleDragOverItem index) s in
  throws (totalDuration (clips (state s')))
  /\ throws (totalSize (clips (state s'))).
Proof.
  intros Hdragged Hlen Hne s'.
  assert (None ∈ clips (state s')) as Hin.
  { assert (clips (state s')
            = take index (clips (state s)) ++ None :: drop index (clips (state s))) as ->.
    { subst s'. rewrite (handleDragOverItem_run s dragged index Hdragged Hne).
      cbn [state clips upd_clips upd_draggedIndex]. unfold reorder.
      rewrite (splice_out_past_end _ _ Hlen). reflexivity. }
    rewrite elem_of_app. right. left. }
  split; apply reduce_sum_undefined; exact Hin.
Qed.

Lemma stale_drag_breaks_render_witness :
  let s := mkSt (upd_draggedIndex (Some 2%nat)
                   (state (demo_session [ Some (demo_clip "c" "/music/c.ogg");
                                          Some (demo_clip "b" "/music/b.wav") ])))
             0%nat [] in
  let s' := after (handleDragOverItem 0) s in
  draggedIndex (state s) = Some 2%nat
  /\ (length (clips (state s)) <= 2)%nat
  /\ 2%nat <> 0%nat
  /\ throws (totalDuration (clips (state s')))
  /\ throws (totalSize (clips (state s'))).
Proof.
  intros s s'. split; [reflexivity|]. split; [cbn; lia|]. split; [discriminate|].
  apply (stale_drag_breaks_render s 2 0); [reflexivity | cbn; lia | discriminate].
Defined.
